(** * nine: handler normalisation, route groups, path parameters, error envelope

    A shallow embedding of the Go sources of the [nine] HTTP toolkit
    ([pkg/server/handler_validator.go], [pkg/server/route_group.go],
    [pkg/server/context.go] and the root package's server) together with
    the properties its design document states about them and further
    properties the code itself shows (X1 to X14).

    Conventions.  Go strings are [string]; an interface value of type
    [any] is an inductive with one constructor per dynamic type the code
    switches on; a Go [error] is the chain that [errors.New] and
    [fmt.Errorf] build; a Go slice is a window (pointer, length, capacity)
    on a backing array kept in an explicit heap, so that [append] shares
    or reallocates storage as the runtime does. *)

From Stdlib Require Import ZArith Lia Bool Ascii DecimalString DecimalNat DecimalFacts.
From stdpp Require Import base option list strings gmap.

(** ** Go strings: the few library functions the sources call *)
Module GoStrings.

(** [strings.HasPrefix(s, prefix)]. *)
Fixpoint HasPrefix (s prefix : string) {struct prefix} : bool :=
  match prefix, s with
  | EmptyString, _ => true
  | String _ _, EmptyString => false
  | String a prefix', String b s' => if Ascii.eqb a b then HasPrefix s' prefix' else false
  end.

(** [s[n:]] for [n <= len(s)]. *)
Fixpoint skip (n : nat) (s : string) : string :=
  match n, s with
  | S n', String _ s' => skip n' s'
  | _, _ => s
  end.

(** [strings.TrimPrefix(s, prefix)]: [s] without the leading [prefix]
    when it has one, [s] itself otherwise. *)
Definition TrimPrefix (s prefix : string) : string :=
  if HasPrefix s prefix then skip (String.length prefix) s else s.

(** [strings.TrimSuffix(s, suffix)]: [s] without the trailing [suffix]
    when it has one, [s] itself otherwise.  The scan stops at the one
    offset where the rest of [s] is [suffix]. *)
Fixpoint TrimSuffix (s suffix : string) : string :=
  if String.eqb s suffix then EmptyString
  else match s with
       | EmptyString => EmptyString
       | String c s' => String c (TrimSuffix s' suffix)
       end.

(** [%d] of a non-negative integer. *)
Definition itoa (n : nat) : string := NilEmpty.string_of_uint (Nat.to_uint n).

Lemma itoa_inj (i j : nat) : itoa i = itoa j -> i = j.
Proof.
  unfold itoa. intros H.
  assert (E : Some (Nat.to_uint i) = Some (Nat.to_uint j)).
  { rewrite <- !NilEmpty.usu. now rewrite H. }
  injection E as E. now apply DecimalNat.Unsigned.to_uint_inj.
Qed.

Lemma str_app_cons (c : Ascii.ascii) (a b : string) : String c a +:+ b = String c (a +:+ b).
Proof. reflexivity. Qed.

Lemma str_app_nil_l (a : string) : "" +:+ a = a.
Proof. reflexivity. Qed.

Lemma str_app_nil_r (a : string) : a +:+ "" = a.
Proof. induction a as [|x a IH]; [easy|]. now rewrite str_app_cons, IH. Qed.

Lemma str_app_assoc (a b c : string) : (a +:+ b) +:+ c = a +:+ (b +:+ c).
Proof. induction a as [|x a IH]; [easy|]. now rewrite !str_app_cons, IH. Qed.

Lemma str_app_inv_head (p s t : string) : p +:+ s = p +:+ t -> s = t.
Proof. apply String.app_inj. Qed.

Lemma str_length_app (a b : string) :
  String.length (a +:+ b) = String.length a + String.length b.
Proof. induction a as [|x a IH]; [easy|]. rewrite str_app_cons. simpl. now rewrite IH. Qed.

Lemma str_app_inv_tail (a b t : string) : a +:+ t = b +:+ t -> a = b.
Proof.
  revert b. induction a as [|x a IH]; intros [|y b] H.
  - reflexivity.
  - apply (f_equal String.length) in H. rewrite str_app_nil_l, str_app_cons in H.
    simpl in H. rewrite str_length_app in H. lia.
  - apply (f_equal String.length) in H. rewrite str_app_nil_l, str_app_cons in H.
    simpl in H. rewrite str_length_app in H. lia.
  - rewrite !str_app_cons in H. injection H as -> H. f_equal. now apply IH.
Qed.

(** The two trimming functions do what the Go documentation says. *)
Lemma HasPrefix_app (prefix a : string) : HasPrefix (prefix +:+ a) prefix = true.
Proof.
  induction prefix as [|c prefix IH]; [reflexivity|].
  rewrite str_app_cons. cbn [HasPrefix]. now rewrite Ascii.eqb_refl.
Qed.

Lemma HasPrefix_inv (s prefix : string) :
  HasPrefix s prefix = true -> exists a, s = prefix +:+ a.
Proof.
  revert s. induction prefix as [|c prefix IH]; intros s H.
  - exists s. reflexivity.
  - destruct s as [|d s]; [discriminate|]. cbn [HasPrefix] in H.
    destruct (Ascii.eqb_spec c d) as [-> | _]; [|discriminate].
    destruct (IH s H) as [a ->]. exists a. now rewrite str_app_cons.
Qed.

Lemma skip_app (prefix a : string) : skip (String.length prefix) (prefix +:+ a) = a.
Proof. induction prefix as [|c prefix IH]; [now destruct a|]. exact IH. Qed.

Lemma TrimPrefix_app (prefix a : string) : TrimPrefix (prefix +:+ a) prefix = a.
Proof. unfold TrimPrefix. now rewrite HasPrefix_app, skip_app. Qed.

Lemma TrimPrefix_none (s prefix : string) :
  (forall a, s <> prefix +:+ a) -> TrimPrefix s prefix = s.
Proof.
  intros H. unfold TrimPrefix. destruct (HasPrefix s prefix) eqn:E; [|reflexivity].
  destruct (HasPrefix_inv s prefix E) as [a ->]. now elim (H a).
Qed.

Lemma TrimSuffix_app (a suffix : string) : TrimSuffix (a +:+ suffix) suffix = a.
Proof.
  induction a as [|c a IH].
  - rewrite str_app_nil_l. destruct suffix; cbn [TrimSuffix]; now rewrite String.eqb_refl.
  - rewrite str_app_cons. cbn [TrimSuffix].
    destruct (String.eqb_spec (String c (a +:+ suffix)) suffix) as [E | _].
    + apply (f_equal String.length) in E. cbn [String.length] in E.
      rewrite str_length_app in E. lia.
    + now rewrite IH.
Qed.

Lemma TrimSuffix_none (s suffix : string) :
  (forall a, s <> a +:+ suffix) -> TrimSuffix s suffix = s.
Proof.
  induction s as [|c s IH]; intros H.
  - cbn [TrimSuffix]. destruct (String.eqb_spec "" suffix) as [<- | _]; [|reflexivity].
    now elim (H "").
  - cbn [TrimSuffix]. destruct (String.eqb_spec (String c s) suffix) as [<- | _].
    + now elim (H "").
    + f_equal. apply IH. intros a ->. apply (H (String c a)). now rewrite str_app_cons.
Qed.

End GoStrings.

(** ** Go errors *)
Module GoErrors.
Import GoStrings.

(** An error value: [errors.New(msg)], or the wrapper that [fmt.Errorf]
    builds for a format with one [%w] verb. *)
Inductive error : Type :=
| errorString (msg : string)
| wrapError (msg : string) (err : error).

(** [err.Error()]. *)
Definition Error (e : error) : string :=
  match e with
  | errorString msg => msg
  | wrapError msg _ => msg
  end.

(** [errors.Unwrap(err)]. *)
Definition Unwrap (e : error) : option error :=
  match e with
  | errorString _ => None
  | wrapError _ err => Some err
  end.

Fixpoint error_eqb (a b : error) : bool :=
  match a, b with
  | errorString m, errorString m' => String.eqb m m'
  | wrapError m e, wrapError m' e' => String.eqb m m' && error_eqb e e'
  | _, _ => false
  end.

(** [errors.Is(err, target)]: [target] occurs on the unwrap chain. *)
Fixpoint Is (err target : error) : bool :=
  error_eqb err target ||
  match err with
  | errorString _ => false
  | wrapError _ inner => Is inner target
  end.

(** What a call of a function that returns [error] comes to: it returns,
    leaving the world in some state, or it panics. *)
Inductive outcome (World : Type) : Type :=
| Returned (w : World) (err : option error)
| Panicked.
Arguments Returned {World} w err.
Arguments Panicked {World}.

(** The result of a function that returns [(T, error)] and may panic. *)
Inductive result (T : Type) : Type :=
| Ok (v : T)
| Err (e : error)
| Panic.
Arguments Ok {T} v.
Arguments Err {T} e.
Arguments Panic {T}.

End GoErrors.

(** ** Handler normalisation ([pkg/server/handler_validator.go]) *)
Module Handlers.
Import GoStrings GoErrors.

Section Shapes.

(** The request view, the response view, the per-request context and the
    world a handler acts on (the connection, the caller's data). *)
Variables Request Response Context World : Type.

(** [NewContext] ([context.go]): the context built from the two views. *)
Variable NewContext : Request -> Response -> Context.

(** [func(req *Request, res *Response) error]; [None] is the nil function. *)
Definition func_req_res : Type :=
  option (Request -> Response -> World -> outcome World).

(** [func(c *Context) error]; [None] is the nil function. *)
Definition func_ctx : Type :=
  option (Context -> World -> outcome World).

(** [type Handler func(req *Request, res *Response) error]. *)
Definition Handler : Type := func_req_res.

(** [type HandlerWithContext func(c *Context) error]. *)
Definition HandlerWithContext : Type := func_ctx.

(** Calling a function value; calling nil panics. *)
Definition call (h : Handler) (req : Request) (res : Response) (w : World) : outcome World :=
  match h with
  | Some f => f req res w
  | None => Panicked
  end.

Definition call_ctx (h : func_ctx) (c : Context) (w : World) : outcome World :=
  match h with
  | Some f => f c w
  | None => Panicked
  end.

(** The method [HandlerWithContext.Handler(req, res)] is declared elsewhere
    in the package and is taken as it comes: from the context-based
    function and the two views to a handler. *)
Variable HandlerWithContext_Handler : HandlerWithContext -> Request -> Response -> Handler.

(** Modelled from the spec: what section 4.1 says of that method, that the
    function is adapted to the request/response views, a context being
    constructed from them per call before the function is invoked. *)
Definition adapts_context_function : Prop :=
  forall (h : HandlerWithContext) (req res : _) (req' : Request) (res' : Response) (w : World),
    call (HandlerWithContext_Handler h req res) req' res' w = call_ctx h (NewContext req' res') w.

(** A value of the empty interface [any], by dynamic type: the four types
    the type switch of [validateHandler] names, the nil interface, and a
    value of any other type (kept with [reflect.TypeOf(h).String()]). *)
Inductive any : Type :=
| any_nil
| any_Handler (handler : Handler)
| any_HandlerWithContext (handler : HandlerWithContext)
| any_func_req_res (handler : func_req_res)
| any_func_ctx (handler : func_ctx)
| any_other (type_name : string).

(** The dynamic types the switch tells apart. *)
Inductive shape : Type :=
| CanonicalHandler | ContextCapability | RawTwoArgument | RawContextFunction
| Unrecognized.

Definition shape_of (h : any) : shape :=
  match h with
  | any_Handler _ => CanonicalHandler
  | any_HandlerWithContext _ => ContextCapability
  | any_func_req_res _ => RawTwoArgument
  | any_func_ctx _ => RawContextFunction
  | any_nil | any_other _ => Unrecognized
  end.

Definition recognized (h : any) : bool :=
  match shape_of h with Unrecognized => false | _ => true end.

(** [fmt.Sprintf("%v", reflect.TypeOf(h))]. *)
Definition TypeOf (h : any) : string :=
  match h with
  | any_nil => "<nil>"
  | any_Handler _ => "server.Handler"
  | any_HandlerWithContext _ => "server.HandlerWithContext"
  | any_func_req_res _ => "func(*server.Request, *server.Response) error"
  | any_func_ctx _ => "func(*server.Context) error"
  | any_other type_name => type_name
  end.

(** The [InvalidHandlerType] error of the default case. *)
Definition InvalidHandlerType (h : any) : error :=
  errorString ("invalid handler type: " +:+ TypeOf h +:+
               " - must be either nine.Handler or nine.HandlerWithContext").

(** [validateHandler(h any) (validatedHandler Handler, err error)]. *)
Definition validateHandler (h : any) : result Handler :=
  match h with
  | any_Handler handler => Ok handler
  | any_HandlerWithContext handler =>
      Ok (Some (fun req res w => call (HandlerWithContext_Handler handler req res) req res w))
  | any_func_req_res handler => Ok handler
  | any_func_ctx handler =>
      Ok (Some (fun req res w => call (HandlerWithContext_Handler handler req res) req res w))
  | _ => Err (InvalidHandlerType h)
  end.

(** Modelled from the spec: the sentinel [ErrPutAHandler] (the spec's
    [MissingHandler]) is declared elsewhere in the package; its text is
    the one the root package's [registerRoute] uses. *)
Definition ErrPutAHandler : error := errorString "put a handler".

Definition middleware_error (i : nat) (err : error) : error :=
  wrapError ("middleware at position " +:+ itoa i +:+ ": " +:+ Error err) err.

Definition final_handler_error (err : error) : error :=
  wrapError ("final handler: " +:+ Error err) err.

(** The loop [for i := range lastIndex] of [registerHandlers], started at
    index [i] with [n] iterations to go. *)
Fixpoint validate_middlewares (handlers : list any) (i n : nat)
    (middlewares : list Handler) : result (list Handler) :=
  match n with
  | 0 => Ok middlewares
  | S n' =>
      match handlers !! i with
      | None => Panic
      | Some h =>
          match validateHandler h with
          | Ok middleware => validate_middlewares handlers (S i) n' (middlewares ++ [middleware])
          | Err err => Err (middleware_error i err)
          | Panic => Panic
          end
      end
  end.

(** [registerHandlers(handlers ...any) (Handler, []Handler, error)]. *)
Definition registerHandlers (handlers : list any) : result (Handler * list Handler) :=
  if Nat.eqb (length handlers) 0 then Err ErrPutAHandler
  else
    let lastIndex := length handlers - 1 in
    match validate_middlewares handlers 0 lastIndex [] with
    | Err e => Err e
    | Panic => Panic
    | Ok middlewares =>
        match handlers !! lastIndex with
        | None => Panic
        | Some h =>
            match validateHandler h with
            | Ok finalHandler => Ok (finalHandler, middlewares)
            | Err err => Err (final_handler_error err)
            | Panic => Panic
            end
        end
    end.

(** A route of the table (section 3 of the design document). *)
Record Route : Type := {
  method : string;
  pattern : string;
  handler : Handler;
  middlewareChain : list Handler
}.

(** Modelled from the spec: the registration method of the server of
    [pkg/server] is declared elsewhere in the package.  It follows the
    root package's [registerRoute] with the batch normaliser in front, as
    sections 3 and 4.1 describe: a failed batch is reported and leaves the
    table alone, a good one appends one route. *)
Definition registerRoute (routes : list Route) (method endpoint : string)
    (handlers : list any) : outcome (list Route) :=
  match registerHandlers handlers with
  | Ok (h, ms) =>
      Returned (routes ++ [{| method := method; pattern := endpoint;
                              handler := h; middlewareChain := ms |}]) None
  | Err e => Returned routes (Some e)
  | Panic => Panicked
  end.

(** *** Properties of the normaliser *)

Lemma recognized_validateHandler (h : any) :
  recognized h = true -> exists v, validateHandler h = Ok v.
Proof. destruct h; simpl; try discriminate; eauto. Qed.

Lemma unrecognized_validateHandler (h : any) :
  recognized h = false -> validateHandler h = Err (InvalidHandlerType h).
Proof. destruct h; simpl; try discriminate; reflexivity. Qed.

(** C3: each of the four recognised shapes is accepted, and the canonical
    handler obtained runs the supplied one on the very request and
    response it is called with: a [Handler] and a raw two-argument
    function directly, a context-capability value and a raw context
    function through the handler their [Handler] method returns for that
    request and response.  With that method as the design document has it
    (the function is run on the context built from the two views), a
    two-argument function and a context function that agree are
    normalised, in any of the four shapes, to handlers with the same
    outcome on every call. *)
Theorem validateHandler_preserves_behaviour :
  (forall handler : Handler, exists v,
      validateHandler (any_Handler handler) = Ok v /\
      forall req res w, call v req res w = call handler req res w) /\
  (forall handler : HandlerWithContext, exists v,
      validateHandler (any_HandlerWithContext handler) = Ok v /\
      forall req res w,
        call v req res w = call (HandlerWithContext_Handler handler req res) req res w) /\
  (forall handler : func_req_res, exists v,
      validateHandler (any_func_req_res handler) = Ok v /\
      forall req res w, call v req res w = call handler req res w) /\
  (forall handler : func_ctx, exists v,
      validateHandler (any_func_ctx handler) = Ok v /\
      forall req res w,
        call v req res w = call (HandlerWithContext_Handler handler req res) req res w) /\
  (adapts_context_function ->
   forall (f : func_req_res) (g : func_ctx),
      (forall req res w, call f req res w = call_ctx g (NewContext req res) w) ->
      forall v1 v2 v3 v4,
        validateHandler (any_Handler f) = Ok v1 ->
        validateHandler (any_HandlerWithContext g) = Ok v2 ->
        validateHandler (any_func_req_res f) = Ok v3 ->
        validateHandler (any_func_ctx g) = Ok v4 ->
        forall req res w,
          call v1 req res w = call_ctx g (NewContext req res) w /\
          call v2 req res w = call_ctx g (NewContext req res) w /\
          call v3 req res w = call_ctx g (NewContext req res) w /\
          call v4 req res w = call_ctx g (NewContext req res) w).
Proof.
  split; [|split; [|split; [|split]]].
  - intros handler. exists handler. split; reflexivity.
  - intros handler. eexists. split; [reflexivity|]. intros; reflexivity.
  - intros handler. exists handler. split; reflexivity.
  - intros handler. eexists. split; [reflexivity|]. intros; reflexivity.
  - intros Hm f g Hfg v1 v2 v3 v4 H1 H2 H3 H4 req res w. simpl in *.
    injection H1 as <-. injection H2 as <-. injection H3 as <-. injection H4 as <-.
    simpl. rewrite !Hm. rewrite Hfg. auto.
Qed.

(** C6: [validateHandler] fails exactly on the values of no recognised
    shape; the error then carries the text of the value's dynamic type
    between a fixed head and a fixed tail; a value of a recognised shape
    yields a canonical handler and no error. *)
Theorem validateHandler_fails_iff_unrecognized (h : any) :
  (recognized h = false <-> exists e, validateHandler h = Err e) /\
  (recognized h = false ->
     validateHandler h =
       Err (errorString ("invalid handler type: " +:+ TypeOf h +:+
              " - must be either nine.Handler or nine.HandlerWithContext"))) /\
  (recognized h = true <-> exists v, validateHandler h = Ok v) /\
  validateHandler h <> Panic.
Proof.
  repeat split.
  - intros Hr. rewrite (unrecognized_validateHandler _ Hr). eauto.
  - intros [e He]. destruct h; try reflexivity; discriminate.
  - apply unrecognized_validateHandler.
  - apply recognized_validateHandler.
  - intros [v Hv]. destruct h; try reflexivity; discriminate.
  - destruct h; discriminate.
Qed.

(** *** Properties of the batch normaliser *)

Definition all_recognized (hs : list any) : Prop :=
  Forall (fun h => recognized h = true) hs.

(** The loop over a stretch of recognised values collects their canonical
    handlers, in order. *)
Lemma validate_middlewares_good (todo : list any) :
  all_recognized todo ->
  forall pre rest acc,
  exists ms,
    validate_middlewares (pre ++ todo ++ rest) (length pre) (length todo) acc
      = Ok (acc ++ ms) /\
    Forall2 (fun a m => validateHandler a = Ok m) todo ms.
Proof.
  induction 1 as [|a todo Ha _ IH]; intros pre rest acc.
  - exists []. simpl. rewrite app_nil_r. split; [reflexivity|constructor].
  - destruct (recognized_validateHandler _ Ha) as [m Hm].
    simpl. rewrite list_lookup_middle by reflexivity. rewrite Hm.
    destruct (IH (pre ++ [a]) rest (acc ++ [m])) as [ms [E F]].
    rewrite length_app in E. simpl in E. rewrite Nat.add_1_r in E.
    rewrite <- app_assoc in E. simpl in E.
    exists (m :: ms). split.
    + rewrite E. now rewrite <- app_assoc.
    + now constructor.
Qed.

(** The loop stops at the first value of no recognised shape and reports
    its index. *)
Lemma validate_middlewares_bad (good : list any) :
  all_recognized good ->
  forall pre bad rest acc n,
  recognized bad = false ->
  length good < n ->
  validate_middlewares (pre ++ good ++ bad :: rest) (length pre) n acc
    = Err (middleware_error (length pre + length good) (InvalidHandlerType bad)).
Proof.
  induction 1 as [|a good Ha _ IH]; intros pre bad rest acc n Hbad Hn.
  - destruct n as [|n]; [simpl in Hn; lia|].
    simpl. rewrite list_lookup_middle by reflexivity.
    rewrite (unrecognized_validateHandler _ Hbad). now rewrite Nat.add_0_r.
  - destruct n as [|n]; [simpl in Hn; lia|].
    destruct (recognized_validateHandler _ Ha) as [m Hm].
    simpl. rewrite list_lookup_middle by reflexivity. rewrite Hm.
    specialize (IH (pre ++ [a]) bad rest (acc ++ [m]) n Hbad).
    rewrite length_app in IH. simpl in IH. rewrite Nat.add_1_r in IH.
    rewrite <- app_assoc in IH. simpl in IH.
    rewrite IH by (simpl in Hn; lia). do 2 f_equal. lia.
Qed.

Lemma registerHandlers_nonempty (init : list any) (l : any) :
  registerHandlers (init ++ [l]) =
    match validate_middlewares (init ++ [l]) 0 (length init) [] with
    | Err e => Err e
    | Panic => Panic
    | Ok middlewares =>
        match validateHandler l with
        | Ok finalHandler => Ok (finalHandler, middlewares)
        | Err err => Err (final_handler_error err)
        | Panic => Panic
        end
    end.
Proof.
  unfold registerHandlers. rewrite length_app. simpl.
  replace (length init + 1) with (S (length init)) by lia. simpl.
  rewrite Nat.sub_0_r.
  destruct (validate_middlewares _ _ _ _); try reflexivity.
  now rewrite list_lookup_middle by reflexivity.
Qed.

Lemma registerHandlers_bad_middleware (good rest : list any) (bad l : any) :
  all_recognized good -> recognized bad = false ->
  registerHandlers (good ++ bad :: rest ++ [l]) =
    Err (middleware_error (length good) (InvalidHandlerType bad)).
Proof.
  intros Hg Hb.
  replace (good ++ bad :: rest ++ [l]) with ((good ++ bad :: rest) ++ [l])
    by now rewrite <- app_assoc.
  rewrite registerHandlers_nonempty.
  rewrite <- app_assoc. simpl.
  rewrite (validate_middlewares_bad good Hg [] bad (rest ++ [l]) [] _ Hb).
  - reflexivity.
  - rewrite length_app. simpl. lia.
Qed.

Lemma registerHandlers_good_middlewares (good : list any) (l : any) :
  all_recognized good ->
  exists ms,
    Forall2 (fun a m => validateHandler a = Ok m) good ms /\
    registerHandlers (good ++ [l]) =
      match validateHandler l with
      | Ok finalHandler => Ok (finalHandler, ms)
      | Err err => Err (final_handler_error err)
      | Panic => Panic
      end.
Proof.
  intros Hg. rewrite registerHandlers_nonempty.
  destruct (validate_middlewares_good good Hg [] [l] []) as [ms [E F]].
  simpl in E. rewrite E. eauto.
Qed.

(** Every list is a stretch of recognised values, followed or not by a
    first value of no recognised shape. *)
Lemma first_unrecognized (hs : list any) :
  all_recognized hs \/
  exists good bad rest,
    hs = good ++ bad :: rest /\ all_recognized good /\ recognized bad = false.
Proof.
  induction hs as [|a hs IH].
  - left. constructor.
  - destruct (recognized a) eqn:Ha.
    + destruct IH as [IH | (good & bad & rest & -> & Hg & Hb)].
      * left. now constructor.
      * right. exists (a :: good), bad, rest. repeat split; auto. now constructor.
    + right. exists [], a, hs. repeat split; auto. constructor.
Qed.

Lemma Is_ErrPutAHandler_middleware (i : nat) (h : any) :
  Is (middleware_error i (InvalidHandlerType h)) ErrPutAHandler = false.
Proof. reflexivity. Qed.

Lemma Is_ErrPutAHandler_final (h : any) :
  Is (final_handler_error (InvalidHandlerType h)) ErrPutAHandler = false.
Proof. reflexivity. Qed.

Lemma middleware_error_inj (i j : nat) (e e' : error) :
  middleware_error i e = middleware_error j e' -> i = j /\ e = e'.
Proof.
  unfold middleware_error. intros H. injection H as Hm ->. split; [|reflexivity].
  apply str_app_inv_head in Hm.
  rewrite <- !str_app_assoc in Hm. apply str_app_inv_tail in Hm.
  apply str_app_inv_tail in Hm. now apply itoa_inj.
Qed.

Lemma middleware_error_not_final (i : nat) (e e' : error) :
  middleware_error i e <> final_handler_error e'.
Proof. unfold middleware_error, final_handler_error. intros H. discriminate H. Qed.

(** C4: [registerHandlers] answers [ErrPutAHandler] on the empty list, and
    on no other list is that sentinel on the error's chain; the server's
    registration then leaves the route table as it was.  On a non-empty
    list the first middleware (an element before the last) of no
    recognised shape fails the batch with an error that carries its
    zero-based index; when all middleware are good and the last element is
    not, the batch fails with the final-handler error; the two kinds of
    error differ and the middleware error determines the index.  When
    every element is good the result is the last element's canonical
    handler with the canonical handlers of the elements before it, in
    order; a non-empty batch succeeds exactly when every element is good.
    The function never panics. *)
Theorem registerHandlers_spec :
  registerHandlers [] = Err ErrPutAHandler /\
  (forall routes method endpoint,
      registerRoute routes method endpoint [] = Returned routes (Some ErrPutAHandler)) /\
  (forall handlers e,
      registerHandlers handlers = Err e ->
      (Is e ErrPutAHandler = true <-> handlers = [])) /\
  (forall good bad rest l,
      all_recognized good -> recognized bad = false ->
      registerHandlers (good ++ bad :: rest ++ [l]) =
        Err (middleware_error (length good) (InvalidHandlerType bad))) /\
  (forall good l,
      all_recognized good -> recognized l = false ->
      registerHandlers (good ++ [l]) =
        Err (final_handler_error (InvalidHandlerType l))) /\
  (forall i j e e',
      middleware_error i e <> final_handler_error e' /\
      (middleware_error i e = middleware_error j e' -> i = j)) /\
  (forall good l,
      all_recognized good -> recognized l = true ->
      exists h ms,
        registerHandlers (good ++ [l]) = Ok (h, ms) /\
        validateHandler l = Ok h /\
        Forall2 (fun a m => validateHandler a = Ok m) good ms) /\
  (forall handlers,
      handlers <> [] ->
      (all_recognized handlers <-> exists h ms, registerHandlers handlers = Ok (h, ms))) /\
  (forall handlers, registerHandlers handlers <> Panic).
Proof.
  assert (Hfinal : forall good l, all_recognized good -> recognized l = false ->
            registerHandlers (good ++ [l]) =
              Err (final_handler_error (InvalidHandlerType l))).
  { intros good l Hg Hl.
    destruct (registerHandlers_good_middlewares good l Hg) as (ms & _ & E).
    rewrite E. now rewrite (unrecognized_validateHandler _ Hl). }
  assert (Hok : forall good l, all_recognized good -> recognized l = true ->
            exists h ms,
              registerHandlers (good ++ [l]) = Ok (h, ms) /\
              validateHandler l = Ok h /\
              Forall2 (fun a m => validateHandler a = Ok m) good ms).
  { intros good l Hg Hl.
    destruct (registerHandlers_good_middlewares good l Hg) as (ms & F & E).
    destruct (recognized_validateHandler _ Hl) as [h Hh].
    exists h, ms. rewrite E, Hh. auto. }
  (* every non-empty list falls under one of the three cases *)
  assert (Hcases : forall init l,
            (exists good bad rest, init = good ++ bad :: rest /\
               registerHandlers (init ++ [l]) =
                 Err (middleware_error (length good) (InvalidHandlerType bad))) \/
            registerHandlers (init ++ [l]) =
              Err (final_handler_error (InvalidHandlerType l)) \/
            exists h ms, registerHandlers (init ++ [l]) = Ok (h, ms)).
  { intros init l.
    destruct (first_unrecognized init) as [Hg | (good & bad & rest & -> & Hg & Hb)].
    - destruct (recognized l) eqn:Hl.
      + right; right. destruct (Hok init l Hg Hl) as (h & ms & E & _). eauto.
      + right; left. auto.
    - left. exists good, bad, rest. split; [reflexivity|].
      rewrite <- app_assoc. simpl.
      now apply registerHandlers_bad_middleware. }
  repeat split.
  - intros Hp. destruct handlers as [|a handlers] using rev_ind; [reflexivity|].
    exfalso.
    destruct (Hcases handlers a) as [(good & bad & rest & _ & E) | [E | (h & ms & E)]];
      rewrite E in H; try discriminate; injection H as <-.
    + now rewrite Is_ErrPutAHandler_middleware in Hp.
    + now rewrite Is_ErrPutAHandler_final in Hp.
  - intros ->. simpl in H. injection H as <-. reflexivity.
  - intros good bad rest l. apply registerHandlers_bad_middleware.
  - exact Hfinal.
  - apply middleware_error_not_final.
  - intros E. now apply middleware_error_inj in E.
  - exact Hok.
  - intros Hall. destruct handlers as [|l init _] using rev_ind; [congruence|].
    apply Forall_app in Hall as [Hi Hl]. inversion Hl as [|? ? Hl' _]; subst.
    destruct (Hok init l Hi Hl') as (h & ms & E & _). eauto.
  - intros (h & ms & E).
    destruct (first_unrecognized handlers) as [Hg | (good & bad & rest & -> & Hg & Hb)];
      [exact Hg | exfalso].
    destruct rest as [|l rest _] using rev_ind.
    + rewrite (Hfinal good bad Hg Hb) in E. discriminate.
    + rewrite (registerHandlers_bad_middleware good rest bad l Hg Hb) in E. discriminate.
  - intros handlers. destruct handlers as [|a handlers] using rev_ind; [discriminate|].
    destruct (Hcases handlers a) as [(good & bad & rest & _ & E) | [E | (h & ms & E)]];
      rewrite E; discriminate.
Qed.

End Shapes.

End Handlers.

(** ** Handler normalisation at work *)
Module HandlerScenarios.
Import GoStrings GoErrors Handlers.

(** A request is its path, a response its status, a context the pair; the
    world is the list of bodies sent. *)
Definition Request : Type := string.
Definition Response : Type := nat.
Definition Context : Type := Request * Response.
Definition World : Type := list string.

Definition NewContext (req : Request) (res : Response) : Context := (req, res).

(** Modelled from the spec: [HandlerWithContext.Handler], declared
    elsewhere in the package, as section 4.1 has it: the handler returned
    builds a context from the views it is called with and runs the
    function on it. *)
Definition Handler_method (h : HandlerWithContext Context World)
    (req : Request) (res : Response) : Handler Request Response World :=
  Some (fun req' res' w => call_ctx Context World h (NewContext req' res') w).

Definition any' : Type := any Request Response Context World.
Definition validateHandler' := validateHandler Request Response Context World Handler_method.
Definition registerHandlers' := registerHandlers Request Response Context World Handler_method.
Definition call' := call Request Response World.

(** [func(req, res) error { return res.Send(path) }] and its context twin. *)
Definition greet : func_req_res Request Response World :=
  Some (fun req res w => Returned (w ++ ["hello " +:+ req]) None).
Definition greet_ctx : func_ctx Context World :=
  Some (fun c w => Returned (w ++ ["hello " +:+ c.1]) None).

(** A middleware that refuses every request. *)
Definition deny : func_ctx Context World :=
  Some (fun c w => Returned w (Some (errorString "denied"))).

Lemma Handler_method_adapts :
  adapts_context_function Request Response Context World NewContext Handler_method.
Proof. intros h req res req' res' w. reflexivity. Qed.

Lemma validateHandler_preserves_behaviour_witness :
  (forall req res w, call' greet req res w = call_ctx Context World greet_ctx (NewContext req res) w) /\
  forall v1 v4,
    validateHandler' (any_Handler _ _ _ _ greet) = Ok v1 ->
    validateHandler' (any_func_ctx _ _ _ _ greet_ctx) = Ok v4 ->
    call' v1 "/ann" 200 [] = Returned ["hello /ann"] None /\
    call' v4 "/ann" 200 [] = Returned ["hello /ann"] None.
Proof.
  split; [reflexivity|]. intros v1 v4 H1 H4.
  destruct (validateHandler_preserves_behaviour Request Response Context World
              NewContext Handler_method) as (_ & _ & _ & _ & H).
  destruct (validateHandler' (any_HandlerWithContext _ _ _ _ greet_ctx)) as [v2| |] eqn:H2;
    try discriminate.
  destruct (validateHandler' (any_func_req_res _ _ _ _ greet)) as [v3| |] eqn:H3;
    try discriminate.
  destruct (H Handler_method_adapts greet greet_ctx (fun _ _ _ => eq_refl)
              v1 v2 v3 v4 H1 H2 H3 H4 "/ann" 200 []) as (E1 & _ & _ & E4).
  split; [exact E1 | exact E4].
Defined.

(** A batch whose second element, a middleware, is an [int]. *)
Definition bad_batch : list any' :=
  [any_func_ctx _ _ _ _ deny; any_other _ _ _ _ "int"; any_nil _ _ _ _;
   any_func_req_res _ _ _ _ greet].

Lemma registerHandlers_spec_witness :
  registerHandlers' bad_batch =
    Err (wrapError
           ("middleware at position 1: invalid handler type: int" +:+
            " - must be either nine.Handler or nine.HandlerWithContext")
           (errorString ("invalid handler type: int" +:+
                         " - must be either nine.Handler or nine.HandlerWithContext"))) /\
  registerHandlers' [any_func_ctx _ _ _ _ deny; any_nil _ _ _ _] =
    Err (wrapError
           ("final handler: invalid handler type: <nil>" +:+
            " - must be either nine.Handler or nine.HandlerWithContext")
           (errorString ("invalid handler type: <nil>" +:+
                         " - must be either nine.Handler or nine.HandlerWithContext"))).
Proof.
  destruct (registerHandlers_spec Request Response Context World Handler_method)
    as (_ & _ & _ & Hmid & Hfin & _).
  split.
  - apply (Hmid [any_func_ctx _ _ _ _ deny] (any_other _ _ _ _ "int") [any_nil _ _ _ _]
             (any_func_req_res _ _ _ _ greet)).
    + repeat constructor.
    + reflexivity.
  - apply (Hfin [any_func_ctx _ _ _ _ deny] (any_nil _ _ _ _)).
    + repeat constructor.
    + reflexivity.
Defined.

End HandlerScenarios.

(** ** Go slices *)
Module Slices.

(** The backing arrays, in allocation order; an array never changes size. *)
Abbreviation heap A := (list (list A)).

(** A slice header.  The nil slice has length and capacity 0. *)
Record slice : Type := { ptr : nat; len : nat; cap : nat }.

Definition nil_slice : slice := {| ptr := 0; len := 0; cap := 0 |}.

Section SliceOps.

(** The element type and its zero value. *)
Variable A : Type.
Variable zero : A.

(** The runtime's growth rule: from the old capacity and the length
    needed to the capacity it asks for (never used below that length). *)
Variable growcap : nat -> nat -> nat.

Definition array (h : heap A) (s : slice) : list A := default [] (h !! ptr s).

(** The elements a slice shows. *)
Definition elems (h : heap A) (s : slice) : list A := take (len s) (array h s).

(** The slice a call allocates for the values passed for a variadic
    parameter: nil for none, a full array otherwise. *)
Definition variadic (h : heap A) (xs : list A) : heap A * slice :=
  match xs with
  | [] => (h, nil_slice)
  | _ => (h ++ [xs], {| ptr := length h; len := length xs; cap := length xs |})
  end.

(** [append(s, xs...)]: within capacity the values are written behind the
    slice's elements in its own backing array; beyond it a new array gets
    the old elements and the new. *)
Definition append (h : heap A) (s : slice) (xs : list A) : heap A * slice :=
  let n := len s + length xs in
  if n <=? cap s then
    (<[ptr s := take (len s) (array h s) ++ xs ++ drop n (array h s)]> h,
     {| ptr := ptr s; len := n; cap := cap s |})
  else
    let c := Nat.max n (growcap (cap s) n) in
    (h ++ [elems h s ++ xs ++ replicate (c - n) zero],
     {| ptr := length h; len := n; cap := c |}).

(** A slice of the heap: within its capacity, on an array of that size. *)
Definition wf_slice (h : heap A) (s : slice) : Prop :=
  len s <= cap s /\
  (cap s = 0 \/ exists arr, h !! ptr s = Some arr /\ length arr = cap s).

Lemma wf_nil_slice (h : heap A) : wf_slice h nil_slice.
Proof. split; simpl; auto. Qed.

Lemma elems_nil_slice (h : heap A) : elems h nil_slice = [].
Proof. reflexivity. Qed.

Lemma length_elems (h : heap A) (s : slice) : wf_slice h s -> length (elems h s) = len s.
Proof.
  intros [Hl [Hc | (arr & Ha & Hlen)]]; unfold elems, array.
  - assert (len s = 0) as -> by lia. reflexivity.
  - rewrite Ha. simpl. rewrite length_take. lia.
Qed.

Lemma variadic_elems (h : heap A) (xs : list A) :
  elems (variadic h xs).1 (variadic h xs).2 = xs.
Proof.
  destruct xs as [|x xs]; [reflexivity|].
  unfold variadic, elems, array. cbn [fst snd ptr len].
  rewrite list_lookup_middle by reflexivity. simpl. now rewrite take_ge by (simpl; lia).
Qed.

Lemma variadic_wf (h : heap A) (xs : list A) :
  wf_slice (variadic h xs).1 (variadic h xs).2.
Proof.
  destruct xs as [|x xs]; [apply wf_nil_slice|].
  split; [simpl; lia|]. right. exists (x :: xs). simpl.
  now rewrite list_lookup_middle by reflexivity.
Qed.

Lemma variadic_frame (h : heap A) (xs : list A) (t : slice) :
  wf_slice h t ->
  wf_slice (variadic h xs).1 t /\ elems (variadic h xs).1 t = elems h t.
Proof.
  intros Ht. destruct xs as [|x xs]; [now split|]. simpl.
  destruct Ht as [Hl [Hc | (arr & Ha & Hlen)]].
  - split; [split; auto|]. unfold elems. assert (len t = 0) as -> by lia. reflexivity.
  - split.
    + split; auto. right. exists arr. split; auto. now apply lookup_app_l_Some.
    + unfold elems, array. rewrite Ha. now rewrite (lookup_app_l_Some _ _ _ _ Ha).
Qed.

(** [append] shows the old elements followed by the new ones. *)
Lemma append_elems (h : heap A) (s : slice) (xs : list A) :
  wf_slice h s ->
  elems (append h s xs).1 (append h s xs).2 = elems h s ++ xs.
Proof.
  intros Hs. pose proof (length_elems h s Hs) as Hlen.
  unfold append. destruct (Nat.leb_spec (len s + length xs) (cap s)) as [Hfit | Hgrow].
  - cbn [fst snd]. destruct Hs as [Hl [Hc | (arr & Ha & Harr)]].
    + assert (len s = 0) by lia. assert (length xs = 0) by lia.
      destruct xs; [|discriminate]. unfold elems. cbn [len]. rewrite H. reflexivity.
    + unfold elems at 1. unfold array at 1. cbn [ptr len].
      rewrite list_lookup_insert_eq by (apply lookup_lt_Some in Ha; exact Ha).
      simpl. fold (elems h s). rewrite app_assoc.
      rewrite take_app_length' by (rewrite length_app; lia). reflexivity.
  - cbn [fst snd]. unfold elems at 1. unfold array at 1. cbn [ptr len].
    rewrite list_lookup_middle by reflexivity. simpl. rewrite app_assoc.
    rewrite take_app_length' by (rewrite length_app; lia). reflexivity.
Qed.

(** [append] leaves every slice of the heap that does not reach behind the
    appended slice's length as it was, the appended slice itself included. *)
Lemma append_frame (h : heap A) (s t : slice) (xs : list A) :
  wf_slice h s -> wf_slice h t ->
  (ptr t <> ptr s \/ len t <= len s \/ cap s < len s + length xs) ->
  elems (append h s xs).1 t = elems h t.
Proof.
  intros Hs Ht Hsep. unfold append.
  destruct (Nat.leb_spec (len s + length xs) (cap s)) as [Hfit | Hgrow]; cbn [fst].
  - destruct (decide (ptr t = ptr s)) as [E | NE].
    + destruct Hsep as [? | [Hle | ?]]; [congruence| |lia].
      destruct Ht as [Hl [Hc | (arr & Ha & Harr)]].
      * unfold elems. assert (len t = 0) as -> by lia. reflexivity.
      * unfold elems, array. rewrite E.
        rewrite list_lookup_insert_eq by (rewrite <- E; apply lookup_lt_Some in Ha; exact Ha).
        simpl. rewrite <- E, Ha. simpl.
        rewrite take_app_le by (rewrite length_take; lia).
        rewrite take_take. f_equal. lia.
    + unfold elems, array. now rewrite list_lookup_insert_ne by congruence.
  - destruct Ht as [Hl [Hc | (arr & Ha & Harr)]].
    + unfold elems. assert (len t = 0) as -> by lia. reflexivity.
    + unfold elems, array. now rewrite (lookup_app_l_Some _ _ _ _ Ha), Ha.
Qed.

Lemma append_wf (h : heap A) (s : slice) (xs : list A) :
  wf_slice h s -> wf_slice (append h s xs).1 (append h s xs).2.
Proof.
  intros Hs. pose proof (length_elems h s Hs) as Hlen. unfold append.
  destruct (Nat.leb_spec (len s + length xs) (cap s)) as [Hfit | Hgrow]; cbn [fst snd].
  - split; [simpl; lia|]. cbn [ptr cap].
    destruct Hs as [Hl [Hc | (arr & Ha & Harr)]]; [left; lia|]. right.
    eexists. split.
    + apply list_lookup_insert_eq. apply lookup_lt_Some in Ha. exact Ha.
    + unfold array. rewrite Ha. simpl.
      rewrite !length_app, length_take, length_drop. lia.
  - split; [simpl; lia|]. right. cbn [ptr cap]. eexists. split.
    + apply list_lookup_middle. reflexivity.
    + rewrite !length_app, length_replicate, Hlen. lia.
Qed.

Lemma append_len (h : heap A) (s : slice) (xs : list A) :
  len (append h s xs).2 = len s + length xs.
Proof. unfold append. now destruct (_ <=? _). Qed.

Lemma append_wf_frame (h : heap A) (s t : slice) (xs : list A) :
  wf_slice h s -> wf_slice h t -> wf_slice (append h s xs).1 t.
Proof.
  intros Hs [Hl [Hc | (arr & Ha & Harr)]]; split; auto. right. unfold append.
  destruct (Nat.leb_spec (len s + length xs) (cap s)) as [Hfit | Hgrow]; cbn [fst].
  - destruct (decide (ptr t = ptr s)) as [E | NE].
    + eexists. split.
      * rewrite E. apply list_lookup_insert_eq. rewrite <- E.
        apply lookup_lt_Some in Ha. exact Ha.
      * unfold array. rewrite <- E, Ha. simpl.
        rewrite !length_app, length_take, length_drop.
        destruct Hs as [Hls [Hcs | (arr' & Ha' & Harr')]]; [lia|].
        rewrite <- E, Ha in Ha'. injection Ha' as <-. lia.
    + exists arr. split; auto. now rewrite list_lookup_insert_ne by congruence.
  - exists arr. split; auto. now apply lookup_app_l_Some.
Qed.

(** [append] to a slice without spare capacity changes no array of the
    heap: with nothing to add it writes the array back as it is, otherwise
    it allocates. *)
Lemma append_full_heap (h : heap A) (s : slice) (xs : list A) :
  len s = cap s ->
  (append h s xs).1 = h \/ exists arr, (append h s xs).1 = h ++ [arr].
Proof.
  intros Hfull. unfold append.
  destruct (Nat.leb_spec (len s + length xs) (cap s)) as [Hfit | Hgrow]; cbn [fst].
  - left. assert (length xs = 0) as Hx by lia. destruct xs; [|discriminate].
    rewrite Nat.add_0_r. cbn [app]. rewrite take_drop. unfold array.
    destruct (h !! ptr s) as [arr|] eqn:Ha.
    + now apply list_insert_id.
    + apply list_insert_ge. now apply lookup_ge_None.
  - right. eauto.
Qed.

Lemma append_full_frame (h : heap A) (s t : slice) (xs : list A) :
  len s = cap s -> wf_slice h t ->
  wf_slice (append h s xs).1 t /\ elems (append h s xs).1 t = elems h t.
Proof.
  intros Hfull Ht.
  destruct (append_full_heap h s xs Hfull) as [-> | [arr ->]]; [now split|].
  destruct Ht as [Hl [Hc | (a & Ha & Hlen)]].
  - split; [split; auto|]. unfold elems. assert (len t = 0) as -> by lia. reflexivity.
  - split.
    + split; auto. right. exists a. split; auto. now apply lookup_app_l_Some.
    + unfold elems, array. now rewrite Ha, (lookup_app_l_Some _ _ _ _ Ha).
Qed.

(** The slice of the values passed for a variadic parameter has no spare
    capacity. *)
Lemma variadic_full (h : heap A) (xs : list A) :
  len (variadic h xs).2 = cap (variadic h xs).2.
Proof. now destruct xs. Qed.

Lemma take_overwrite (xs ys tail : list A) :
  take (length xs) (ys ++ drop (length ys) (xs ++ tail)) =
  take (length xs) (ys ++ drop (length ys) xs).
Proof.
  rewrite drop_app, app_assoc. rewrite (take_app (ys ++ drop (length ys) xs)).
  assert (E : length xs - length (ys ++ drop (length ys) xs) = 0).
  { rewrite length_app, length_drop. lia. }
  rewrite E. rewrite take_0. now rewrite app_nil_r.
Qed.

(** Two appends to one slice, both within its capacity: the second writes
    over what the first wrote.  Arrays allocated in between ([ext]) do not
    matter. *)
Lemma append_twice_in_place (h ext : heap A) (s : slice) (xs ys : list A) :
  wf_slice h s -> len s + length xs <= cap s -> len s + length ys <= cap s ->
  elems (append ((append h s xs).1 ++ ext) s ys).1 (append h s xs).2 =
    elems h s ++ take (length xs) (ys ++ drop (length ys) xs).
Proof.
  intros [Hl [Hc | (arr & Ha & Harr)]] Hx Hy.
  - assert (length xs = 0) as Ex by lia. assert (len s = 0) as El by lia.
    destruct xs; [|discriminate]. unfold elems. rewrite append_len, El. reflexivity.
  - unfold append. apply Nat.leb_le in Hx, Hy. rewrite Hx, Hy. cbn [fst snd].
    apply Nat.leb_le in Hx, Hy. pose proof (lookup_lt_Some _ _ _ Ha) as Hlt.
    unfold elems, array. cbn [ptr len]. rewrite Ha. cbn [default from_option id].
    set (arr1 := take (len s) arr ++ xs ++ drop (len s + length xs) arr).
    assert (E1 : (<[ptr s := arr1]> h ++ ext) !! ptr s = Some arr1).
    { apply lookup_app_l_Some. now apply list_lookup_insert_eq. }
    rewrite E1. cbn [default from_option id].
    rewrite list_lookup_insert_eq
      by (rewrite length_app, length_insert; lia).
    cbn [default from_option id].
    assert (Ht : length (take (len s) arr) = len s) by (rewrite length_take; lia).
    subst arr1. rewrite (take_app_length' (take (len s) arr)) by (symmetry; exact Ht).
    rewrite (drop_app_add' (take (len s) arr)) by (symmetry; exact Ht).
    rewrite (take_app_add' (take (len s) arr)) by (symmetry; exact Ht).
    now rewrite take_overwrite.
Qed.

End SliceOps.

Arguments elems {A} h s.
Arguments array {A} h s.
Arguments variadic {A} h xs.
Arguments wf_slice {A} h s.

End Slices.

(** ** Route groups ([pkg/server/route_group.go]) *)
Module RouteGroups.
Import GoStrings GoErrors Slices.

(** The HTTP verbs of the per-verb methods. *)
Inductive Method : Type := MethodGet | MethodPost | MethodPut | MethodPatch | MethodDelete.

(** [RouteGroup]: the manager it registers with, its base path and its
    middleware, a slice of handler-like values. *)
Record RouteGroupOf (M : Type) : Type := NewRouteGroupOf {
  server : M;
  basePath : string;
  middlewares : slice
}.
Arguments NewRouteGroupOf {M} server basePath middlewares.
Arguments server {M} r.
Arguments basePath {M} r.
Arguments middlewares {M} r.

(** The [RouteManager] interface has two implementations: the root server
    and a route group. *)
#[warnings="-register-all"]
Inductive RouteManager : Type :=
| ServerManager
| GroupManager (g : RouteGroupOf RouteManager).

Abbreviation RouteGroup := (RouteGroupOf RouteManager).

(** [NewRouteGroup(server, basePath, middlewares...)]. *)
Definition NewRouteGroup (server : RouteManager) (basePath : string)
    (middlewares : slice) : RouteGroup :=
  NewRouteGroupOf server basePath middlewares.

Definition separator : string := "/".

(** [g.fullPath(path)].  The methods of [stringx.String] it chains are
    those of Go's [strings] package under the same names. *)
Definition fullPath (g : RouteGroup) (path : string) : string :=
  if String.eqb path "/" || String.eqb path "" then basePath g
  else (TrimSuffix (basePath g) separator +:+ separator) +:+ TrimPrefix path separator.

(** The join itself, on the base path alone. *)
Definition join (base path : string) : string :=
  fullPath (NewRouteGroup ServerManager base nil_slice) path.

(** *** Path joining *)

Lemma TrimPrefix_sep_cons (c : Ascii.ascii) (s : string) :
  TrimPrefix (String c s) separator = if Ascii.eqb "/"%char c then s else String c s.
Proof.
  unfold TrimPrefix, separator. cbn [HasPrefix skip String.length].
  now destruct (Ascii.eqb "/"%char c).
Qed.

Lemma TrimPrefix_sep_app (x y : string) :
  x <> "" -> TrimPrefix (x +:+ y) separator = TrimPrefix x separator +:+ y.
Proof.
  destruct x as [|c x]; [congruence|]. intros _.
  rewrite str_app_cons, !TrimPrefix_sep_cons.
  destruct (Ascii.eqb "/"%char c); [reflexivity|]. now rewrite str_app_cons.
Qed.

Lemma TrimPrefix_sep_head (x : string) : TrimPrefix (separator +:+ x) separator = x.
Proof.
  unfold separator at 1. rewrite str_app_cons, str_app_nil_l, TrimPrefix_sep_cons.
  reflexivity.
Qed.

Lemma TrimSuffix_cons (c : Ascii.ascii) (s suffix : string) :
  TrimSuffix (String c s) suffix =
    if String.eqb (String c s) suffix then "" else String c (TrimSuffix s suffix).
Proof. reflexivity. Qed.

Lemma TrimSuffix_sep_cons (c : Ascii.ascii) (s : string) :
  s <> "" -> TrimSuffix (String c s) separator = String c (TrimSuffix s separator).
Proof.
  intros Hs. rewrite TrimSuffix_cons.
  destruct (String.eqb_spec (String c s) separator) as [E | _]; [|reflexivity].
  unfold separator in E. injection E as _ E. congruence.
Qed.

Lemma app_not_empty_r (x y : string) : y <> "" -> x +:+ y <> "".
Proof.
  intros Hy E. apply (f_equal String.length) in E. rewrite str_length_app in E.
  destruct y; [congruence|]. simpl in E. lia.
Qed.

Lemma TrimSuffix_sep_app (x y : string) :
  y <> "" -> TrimSuffix (x +:+ y) separator = x +:+ TrimSuffix y separator.
Proof.
  intros Hy. induction x as [|c x IH]; [reflexivity|].
  rewrite !str_app_cons. rewrite TrimSuffix_sep_cons by now apply app_not_empty_r.
  now rewrite IH.
Qed.

Lemma TrimSuffix_sep_snoc (x : string) : TrimSuffix (x +:+ separator) separator = x.
Proof.
  rewrite TrimSuffix_sep_app by discriminate. unfold separator. simpl.
  apply str_app_nil_r.
Qed.

(** [HasSuffix s "/"], by the last character. *)
Fixpoint ends_with_sep (s : string) : bool :=
  match s with
  | "" => false
  | String c "" => Ascii.eqb c "/"%char
  | String _ s' => ends_with_sep s'
  end.

Lemma TrimSuffix_sep_id (s : string) : ends_with_sep s = false -> TrimSuffix s separator = s.
Proof.
  induction s as [|c s IH]; [reflexivity|]. intros H.
  destruct s as [|d s].
  - simpl in H. rewrite TrimSuffix_cons.
    destruct (String.eqb_spec (String c "") separator) as [E | _]; [|reflexivity].
    unfold separator in E. injection E as ->. discriminate H.
  - rewrite TrimSuffix_sep_cons by discriminate. f_equal. apply IH. exact H.
Qed.

Lemma TrimPrefix_sep_id (s : string) : HasPrefix s separator = false -> TrimPrefix s separator = s.
Proof. unfold TrimPrefix. now intros ->. Qed.

Lemma trivial_path (path : string) :
  String.eqb path "/" || String.eqb path "" = true <-> path = "/" \/ path = "".
Proof.
  rewrite orb_true_iff.
  split; (intros [H | H]; [left | right]); now apply String.eqb_eq.
Qed.

Lemma join_trivial (base path : string) :
  path = "/" \/ path = "" -> join base path = base.
Proof. intros H. unfold join, fullPath. apply trivial_path in H. now rewrite H. Qed.

Lemma join_proper (base path : string) :
  path <> "/" -> path <> "" ->
  join base path = (TrimSuffix base separator +:+ separator) +:+ TrimPrefix path separator.
Proof.
  intros H1 H2. unfold join, fullPath.
  destruct (String.eqb path "/" || String.eqb path "") eqn:E; [|reflexivity].
  apply trivial_path in E. tauto.
Qed.

Lemma TrimPrefix_proper (path : string) :
  path <> "/" -> path <> "" -> TrimPrefix path separator <> "".
Proof.
  destruct path as [|c p]; [congruence|]. intros H1 _.
  rewrite TrimPrefix_sep_cons. destruct (Ascii.eqb_spec "/"%char c) as [<- | _]; [|discriminate].
  intros ->. now apply H1.
Qed.

Lemma TrimSuffix_proper (path : string) :
  path <> "/" -> path <> "" -> TrimSuffix path separator <> "".
Proof.
  destruct path as [|c p]; [congruence|]. intros H1 _.
  rewrite TrimSuffix_cons.
  destruct (String.eqb_spec (String c p) separator) as [E | _]; [|discriminate].
  now elim H1.
Qed.

Lemma Trim_commute (b : string) :
  b <> "/" ->
  TrimSuffix (TrimPrefix b separator) separator = TrimPrefix (TrimSuffix b separator) separator.
Proof.
  intros Hb. destruct b as [|c b]; [reflexivity|].
  rewrite TrimSuffix_cons.
  destruct (String.eqb_spec (String c b) separator) as [E | _]; [now elim Hb|].
  rewrite !TrimPrefix_sep_cons.
  destruct (Ascii.eqb_spec "/"%char c) as [<- | _]; [reflexivity|].
  rewrite TrimSuffix_cons.
  destruct (String.eqb_spec (String c b) separator) as [E | _]; [now elim Hb|reflexivity].
Qed.

Lemma joined_not_trivial (x y : string) :
  y <> "" -> (x +:+ separator) +:+ y <> "/" /\ (x +:+ separator) +:+ y <> "".
Proof.
  intros Hy. destruct y as [|c y]; [congruence|].
  split; intros E; apply (f_equal String.length) in E;
    rewrite !str_length_app in E; simpl in E; lia.
Qed.

(** Joining is associative, on all strings. *)
Lemma join_assoc (a b c : string) : join (join a b) c = join a (join b c).
Proof.
  destruct (String.eqb c "/" || String.eqb c "") eqn:Ec.
  { apply trivial_path in Ec. now rewrite !(join_trivial _ c) by exact Ec. }
  assert (Hc1 : c <> "/") by (intros ->; discriminate Ec).
  assert (Hc2 : c <> "") by (intros ->; discriminate Ec).
  pose proof (TrimPrefix_proper c Hc1 Hc2) as Hc'.
  rewrite (join_proper _ c Hc1 Hc2). rewrite (join_proper b c Hc1 Hc2).
  destruct (joined_not_trivial (TrimSuffix b separator) _ Hc') as [Hj1 Hj2].
  rewrite (join_proper a _ Hj1 Hj2).
  destruct (String.eqb b "/" || String.eqb b "") eqn:Eb.
  - apply trivial_path in Eb. rewrite (join_trivial a b Eb).
    assert (TrimSuffix b separator = "") as -> by (destruct Eb as [-> | ->]; reflexivity).
    rewrite str_app_nil_l. now rewrite TrimPrefix_sep_head.
  - assert (Hb1 : b <> "/") by (intros ->; discriminate Eb).
    assert (Hb2 : b <> "") by (intros ->; discriminate Eb).
    rewrite (join_proper a b Hb1 Hb2).
    rewrite TrimSuffix_sep_app by now apply TrimPrefix_proper.
    rewrite (str_app_assoc (TrimSuffix b separator)).
    rewrite (TrimPrefix_sep_app (TrimSuffix b separator)) by now apply TrimSuffix_proper.
    rewrite (Trim_commute b Hb1). now rewrite !str_app_assoc.
Qed.

Lemma join_seam (base rel : string) :
  rel <> "" -> HasPrefix rel separator = false ->
  join base rel = TrimSuffix base separator +:+ "/" +:+ rel /\
  join base ("/" +:+ rel) = TrimSuffix base separator +:+ "/" +:+ rel.
Proof.
  intros Hne Hp. split.
  - rewrite join_proper; [| intros ->; discriminate Hp | exact Hne].
    rewrite (TrimPrefix_sep_id _ Hp). now rewrite str_app_assoc.
  - destruct (joined_not_trivial "" rel Hne) as [H1 H2].
    rewrite join_proper; [| exact H1 | exact H2].
    fold separator. rewrite TrimPrefix_sep_head. now rewrite str_app_assoc.
Qed.

(** The slash variants of the three parts of the example. *)
Definition account_variants : list string := ["/account"; "/account/"].
Definition profile_variants : list string := ["profile"; "/profile"; "profile/"; "/profile/"].
Definition name_variants : list string := [":name"; "/:name"].

(** C5 (amended): joining with [fullPath] is associative, and it strips
    one trailing slash from the base path and one leading slash from the
    relative path.  For every base and every relative path other than the
    empty one and ["/"], the join is the base without one trailing slash,
    one slash, and the relative path without one leading slash; so for a
    base that does not end in a slash and a relative path that does not
    start with one, the same path comes out whether or not a slash is
    added at the end of the base or at the front of the relative path,
    with one slash at the seam.  ["/account"], ["/profile"] and
    ["/:name"] join to ["/account/profile/:name"] in every such variant
    and in either grouping.  An empty relative path or ["/"] gives the
    base path back. *)
Theorem fullPath_associative_normalizing :
  (forall g path, fullPath g path = join (basePath g) path) /\
  (forall a b c, join (join a b) c = join a (join b c)) /\
  (forall base rel,
      rel <> "" -> rel <> "/" ->
      join base rel = TrimSuffix base "/" +:+ "/" +:+ TrimPrefix rel "/") /\
  (forall s,
      TrimSuffix (s +:+ "/") "/" = s /\ TrimPrefix ("/" +:+ s) "/" = s /\
      (ends_with_sep s = false -> TrimSuffix s "/" = s) /\
      (HasPrefix s "/" = false -> TrimPrefix s "/" = s)) /\
  (forall base rel,
      ends_with_sep base = false -> HasPrefix rel separator = false -> rel <> "" ->
      join base rel = base +:+ "/" +:+ rel /\
      join (base +:+ "/") rel = base +:+ "/" +:+ rel /\
      join base ("/" +:+ rel) = base +:+ "/" +:+ rel /\
      join (base +:+ "/") ("/" +:+ rel) = base +:+ "/" +:+ rel) /\
  (forall a b c,
      In a account_variants -> In b profile_variants -> In c name_variants ->
      join (join a b) c = "/account/profile/:name" /\
      join a (join b c) = "/account/profile/:name") /\
  (forall g, fullPath g "" = basePath g /\ fullPath g "/" = basePath g).
Proof.
  split; [reflexivity|]. split; [exact join_assoc|].
  split; [|split; [|split; [|split]]].
  - intros base rel H1 H2. rewrite join_proper by assumption.
    fold separator. now rewrite str_app_assoc.
  - intros s. fold separator. split; [apply TrimSuffix_sep_snoc|].
    split; [apply TrimPrefix_sep_head|]. split; [apply TrimSuffix_sep_id|].
    apply TrimPrefix_sep_id.
  - intros base rel Hb Hr Hne.
    destruct (join_seam base rel Hne Hr) as [E1 E2].
    destruct (join_seam (base +:+ "/") rel Hne Hr) as [E3 E4].
    fold separator in E3, E4. rewrite TrimSuffix_sep_snoc in E3, E4.
    rewrite (TrimSuffix_sep_id _ Hb) in E1, E2. auto.
  - unfold account_variants, profile_variants, name_variants. simpl.
    intros a b c Ha Hb Hc.
    repeat match goal with H : _ \/ _ |- _ => destruct H as [<- | H] end;
      try contradiction; split; reflexivity.
  - intros g. split; reflexivity.
Qed.

(** The claim C5 as it is worded, for every base path and relative path
    and any slash variants, fails: of two slashes at the end of the base
    one is stripped and the seam holds two; a trailing slash on the last
    path stays; and a first path without a leading slash gets none. *)
Lemma join_keeps_further_slashes :
  join "/account//" "/profile" = "/account//profile" /\
  join "/account" "//profile" = "/account//profile" /\
  join (join "/account" "/profile") "/:name/" = "/account/profile/:name/" /\
  join (join "account" "/profile") "/:name" = "account/profile/:name".
Proof. repeat split; reflexivity. Qed.

(** *** Registration through groups *)

Section Groups.

(** Handler-like values are opaque to the route groups. *)
Variable any : Type.
Variable any_zero : any.
Variable growcap : nat -> nat -> nat.

(** The root server owns the route table; its per-verb methods are
    declared elsewhere in the package and are taken as they come: from
    the verb, the endpoint and the handler list received to the new state
    of the server and the error returned. *)
Variable Server : Type.
Variable Server_register : Method -> string -> list any -> Server -> Server * option error.

(** The state registrations act on. *)
Record state : Type := { mem : heap any; srv : Server }.

(** [g.routeHandlers(handlers...)]. *)
Definition routeHandlers (g : RouteGroup) (handlers : slice) (h : heap any) : heap any * slice :=
  append any any_zero growcap h (middlewares g) (elems h handlers).

(** [s.Group(basePath, middlewares...)] of the server. *)
Definition Server_Group (basePath : string) (middlewares : slice) : RouteGroup :=
  NewRouteGroup ServerManager basePath middlewares.

(** [g.Group(basePath, middlewares...)]. *)
Definition RouteGroup_Group (g : RouteGroup) (basePath : string) (ms : slice)
    (h : heap any) : heap any * RouteGroup :=
  let '(h', all) := append any any_zero growcap h (middlewares g) (elems h ms) in
  (h', NewRouteGroup (server g) (fullPath g basePath) all).

(** [Group] through the interface. *)
Definition RouteManager_Group (m : RouteManager) (basePath : string) (ms : slice)
    (h : heap any) : heap any * RouteGroup :=
  match m with
  | ServerManager => (h, Server_Group basePath ms)
  | GroupManager g => RouteGroup_Group g basePath ms h
  end.

(** A per-verb method through the interface, called with [handlers...]:
    the server registers what the slice shows; a group puts its middleware
    in front ([routeHandlers]), joins the path and hands on to its manager. *)
Fixpoint RouteManager_verb (v : Method) (m : RouteManager) (path : string)
    (handlers : slice) (st : state) : state * option error :=
  match m with
  | ServerManager =>
      let '(srv', err) := Server_register v path (elems (mem st) handlers) (srv st) in
      ({| mem := mem st; srv := srv' |}, err)
  | GroupManager g =>
      let '(h', handlers') := routeHandlers g handlers (mem st) in
      RouteManager_verb v (server g) (fullPath g path) handlers'
        {| mem := h'; srv := srv st |}
  end.

Definition RouteGroup_verb (v : Method) (g : RouteGroup) (path : string)
    (handlers : slice) (st : state) : state * option error :=
  RouteManager_verb v (GroupManager g) path handlers st.

(** [g.Get], [g.Post], [g.Put], [g.Patch], [g.Delete]. *)
Definition Get := RouteGroup_verb MethodGet.
Definition Post := RouteGroup_verb MethodPost.
Definition Put := RouteGroup_verb MethodPut.
Definition Patch := RouteGroup_verb MethodPatch.
Definition Delete := RouteGroup_verb MethodDelete.

(** [s.Route(basePath, fn)] of the server.  The callback registers with
    the manager it is given. *)
Definition Server_Route (basePath : string) (fn : RouteManager -> state -> state)
    (st : state) : state :=
  let group := Server_Group basePath nil_slice in
  fn (GroupManager group) st.

(** [g.Route(basePath, fn)]. *)
Definition RouteGroup_Route (g : RouteGroup) (basePath : string)
    (fn : RouteManager -> state -> state) (st : state) : state :=
  let '(h', group) := RouteManager_Group (server g) (fullPath g basePath) nil_slice (mem st) in
  fn (GroupManager group) {| mem := h'; srv := srv st |}.

(** A call that passes its handlers one by one, [m.Get(path, h1, ..., hn)]. *)
Definition call_verb (v : Method) (m : RouteManager) (path : string)
    (handlers : list any) (st : state) : state * option error :=
  let '(h', s) := variadic (mem st) handlers in
  RouteManager_verb v m path s {| mem := h'; srv := srv st |}.

(** [m.Group(basePath, m1, ..., mn)]. *)
Definition call_Group (m : RouteManager) (basePath : string) (ms : list any)
    (h : heap any) : heap any * RouteGroup :=
  let '(h', s) := variadic h ms in
  RouteManager_Group m basePath s h'.

(** The chain a group shows. *)
Definition chain (h : heap any) (g : RouteGroup) : list any := elems h (middlewares g).

Definition wf_group (h : heap any) (g : RouteGroup) : Prop := wf_slice h (middlewares g).

(** Groups nested by [Group], one call per step, each with its base path
    and the middleware passed. *)
Fixpoint nest (g : RouteGroup) (steps : list (string * list any)) (h : heap any)
    : heap any * RouteGroup :=
  match steps with
  | [] => (h, g)
  | (bp, ms) :: steps' =>
      let '(h', g') := call_Group (GroupManager g) bp ms h in
      nest g' steps' h'
  end.

(** *** Properties of [Group] *)

Lemma RouteGroup_Group_eq (g : RouteGroup) (bp : string) (ms : slice) (h : heap any) :
  RouteGroup_Group g bp ms h =
    ((append any any_zero growcap h (middlewares g) (elems h ms)).1,
     NewRouteGroup (server g) (fullPath g bp)
       (append any any_zero growcap h (middlewares g) (elems h ms)).2).
Proof. unfold RouteGroup_Group. now destruct (append _ _ _ _ _ _). Qed.

Lemma call_Group_eq (g : RouteGroup) (bp : string) (ms : list any) (h : heap any) :
  call_Group (GroupManager g) bp ms h =
    RouteGroup_Group g bp (variadic h ms).2 (variadic h ms).1.
Proof. unfold call_Group. now destruct (variadic h ms). Qed.

(** One [Group] call: the new chain, and what it leaves alone. *)
Lemma RouteGroup_Group_spec (g : RouteGroup) (bp : string) (ms : slice) (h : heap any) :
  wf_group h g ->
  chain (RouteGroup_Group g bp ms h).1 (RouteGroup_Group g bp ms h).2
    = chain h g ++ elems h ms /\
  wf_group (RouteGroup_Group g bp ms h).1 (RouteGroup_Group g bp ms h).2 /\
  len (middlewares (RouteGroup_Group g bp ms h).2) = len (middlewares g) + length (elems h ms) /\
  forall t, wf_slice h t -> len t <= len (middlewares g) ->
    wf_slice (RouteGroup_Group g bp ms h).1 t /\
    elems (RouteGroup_Group g bp ms h).1 t = elems h t.
Proof.
  intros Hg. rewrite RouteGroup_Group_eq. unfold chain, wf_group. cbn [fst snd middlewares NewRouteGroup].
  split; [now apply append_elems|]. split; [now apply append_wf|].
  split; [apply append_len|].
  intros t Ht Hlen. split.
  - now apply append_wf_frame.
  - apply append_frame; auto.
Qed.

Lemma call_Group_spec (g : RouteGroup) (bp : string) (ms : list any) (h : heap any) :
  wf_group h g ->
  chain (call_Group (GroupManager g) bp ms h).1 (call_Group (GroupManager g) bp ms h).2
    = chain h g ++ ms /\
  wf_group (call_Group (GroupManager g) bp ms h).1 (call_Group (GroupManager g) bp ms h).2 /\
  len (middlewares g) <= len (middlewares (call_Group (GroupManager g) bp ms h).2) /\
  basePath (call_Group (GroupManager g) bp ms h).2 = join (basePath g) bp /\
  server (call_Group (GroupManager g) bp ms h).2 = server g /\
  forall t, wf_slice h t -> len t <= len (middlewares g) ->
    wf_slice (call_Group (GroupManager g) bp ms h).1 t /\
    elems (call_Group (GroupManager g) bp ms h).1 t = elems h t.
Proof.
  intros Hg. rewrite call_Group_eq.
  destruct (variadic_frame any h ms _ Hg) as [Hg' Eg].
  destruct (RouteGroup_Group_spec g bp (variadic h ms).2 (variadic h ms).1 Hg')
    as (E & W & L & F).
  rewrite variadic_elems in E, L. unfold chain in *. rewrite Eg in E.
  split; [exact E|]. split; [exact W|]. split; [lia|].
  split; [now rewrite RouteGroup_Group_eq|]. split; [now rewrite RouteGroup_Group_eq|].
  intros t Ht Hlen. destruct (variadic_frame any h ms t Ht) as [Ht' Et].
  destruct (F t Ht' Hlen) as [W' E']. split; [exact W'|]. now rewrite E'.
Qed.

(** Nesting to any depth: the innermost chain is the outermost one followed
    by the middleware of each step in order, and every slice of the heap no
    longer than the outermost chain, that chain included, reads as before. *)
Lemma nest_spec (steps : list (string * list any)) :
  forall (g : RouteGroup) (h : heap any),
  wf_group h g ->
  chain (nest g steps h).1 (nest g steps h).2 = chain h g ++ concat (map snd steps) /\
  wf_group (nest g steps h).1 (nest g steps h).2 /\
  basePath (nest g steps h).2 = fold_left join (map fst steps) (basePath g) /\
  server (nest g steps h).2 = server g /\
  len (middlewares g) <= len (middlewares (nest g steps h).2) /\
  forall t, wf_slice h t -> len t <= len (middlewares g) ->
    wf_slice (nest g steps h).1 t /\ elems (nest g steps h).1 t = elems h t.
Proof.
  induction steps as [|[bp ms] steps IH]; intros g h Hg.
  - simpl. rewrite app_nil_r.
    split; [reflexivity|]. split; [exact Hg|]. split; [reflexivity|].
    split; [reflexivity|]. split; [lia|]. intros t Ht _. split; [exact Ht|reflexivity].
  - cbn [nest]. destruct (call_Group_spec g bp ms h Hg) as (E & W & L & B & S & F).
    destruct (call_Group (GroupManager g) bp ms h) as [h' g'] eqn:Ecall.
    cbn [fst snd] in *.
    destruct (IH g' h' W) as (E' & W' & B' & S' & L' & F').
    split; [|split; [|split; [|split; [|split]]]].
    + rewrite E', E. simpl. now rewrite app_assoc.
    + exact W'.
    + rewrite B', B. reflexivity.
    + now rewrite S', S.
    + lia.
    + intros t Ht Hlen. destruct (F t Ht Hlen) as [Wt Et].
      destruct (F' t Wt ltac:(lia)) as [Wt' Et']. split; [exact Wt'|]. now rewrite Et'.
Qed.

(** *** Properties of the per-verb methods and of [Route] *)

Lemma call_verb_eq (v : Method) (m : RouteManager) (path : string)
    (handlers : list any) (st : state) :
  call_verb v m path handlers st =
    RouteManager_verb v m path (variadic (mem st) handlers).2
      {| mem := (variadic (mem st) handlers).1; srv := srv st |}.
Proof. unfold call_verb. now destruct (variadic (mem st) handlers). Qed.

(** The source's equation of a per-verb method of a group. *)
Lemma RouteGroup_verb_eq (v : Method) (g : RouteGroup) (path : string)
    (handlers : slice) (st : state) :
  RouteGroup_verb v g path handlers st =
    RouteManager_verb v (server g) (fullPath g path) (routeHandlers g handlers (mem st)).2
      {| mem := (routeHandlers g handlers (mem st)).1; srv := srv st |}.
Proof.
  unfold RouteGroup_verb. cbn [RouteManager_verb].
  now destruct (routeHandlers g handlers (mem st)).
Qed.

(** The heap after a per-verb call on a group under the server: the
    slice of the handlers passed, then [routeHandlers]. *)
Definition verb_heap (g : RouteGroup) (handlers : list any) (h : heap any) : heap any :=
  (routeHandlers g (variadic h handlers).2 (variadic h handlers).1).1.

(** A group under the server hands the server its chain followed by the
    handlers of the call, at the joined path. *)
Lemma verb_through_group (v : Method) (base : string) (ms : slice) (path : string)
    (handlers : list any) (st : state) :
  let g := NewRouteGroup ServerManager base ms in
  wf_group (mem st) g ->
  call_verb v (GroupManager g) path handlers st =
    ({| mem := verb_heap g handlers (mem st);
        srv := (Server_register v (join base path)
                  (chain (mem st) g ++ handlers) (srv st)).1 |},
     (Server_register v (join base path) (chain (mem st) g ++ handlers) (srv st)).2).
Proof.
  intros g Hg. subst g. set (g := NewRouteGroup ServerManager base ms) in *.
  rewrite call_verb_eq.
  pose proof (RouteGroup_verb_eq v g path (variadic (mem st) handlers).2
                {| mem := (variadic (mem st) handlers).1; srv := srv st |}) as E.
  unfold RouteGroup_verb in E. rewrite E. clear E.
  cbn [mem srv]. unfold verb_heap, routeHandlers.
  destruct (variadic_frame any (mem st) handlers _ Hg) as [Hg' Eg].
  change (server g) with ServerManager. cbn [RouteManager_verb mem srv].
  rewrite append_elems by exact Hg'. rewrite variadic_elems. rewrite Eg.
  change (fullPath g path) with (join base path). fold (chain (mem st) g).
  now destruct (Server_register v (join base path) (chain (mem st) g ++ handlers) (srv st)).
Qed.

(** A per-verb call on a group leaves every slice of the heap no longer
    than the group's chain as it was. *)
Lemma verb_heap_frame (g : RouteGroup) (handlers : list any) (h : heap any) (t : slice) :
  wf_group h g -> wf_slice h t -> len t <= len (middlewares g) ->
  elems (verb_heap g handlers h) t = elems h t.
Proof.
  intros Hg Ht Hlen. unfold verb_heap, routeHandlers.
  destruct (variadic_frame any h handlers _ Hg) as [Hg' _].
  destruct (variadic_frame any h handlers t Ht) as [Ht' Et].
  rewrite append_frame; auto.
Qed.

(** What [Route] of a group under the server hands its callback: a group
    at the joined path whose middleware slice is nil. *)
Lemma Route_hands_bare_group (base : string) (ms : slice) (bp : string)
    (fn : RouteManager -> state -> state) (st : state) :
  RouteGroup_Route (NewRouteGroup ServerManager base ms) bp fn st =
    fn (GroupManager (NewRouteGroup ServerManager (join base bp) nil_slice))
       {| mem := mem st; srv := srv st |}.
Proof. reflexivity. Qed.

(** C2 (the code departs from it): [g.Route(basePath, fn)] calls [fn] with
    a group at [g]'s base path joined with [basePath], but that group is
    made by the manager's [Group] with no middleware: under the server its
    chain is empty whatever [g]'s chain is. *)
Theorem Route_drops_group_middleware (base : string) (ms : slice) (bp : string)
    (fn : RouteManager -> state -> state) (st : state) :
  RouteGroup_Route (NewRouteGroup ServerManager base ms) bp fn st =
    fn (GroupManager (NewRouteGroup ServerManager (join base bp) nil_slice))
       {| mem := mem st; srv := srv st |} /\
  forall h, chain h (NewRouteGroup ServerManager (join base bp) nil_slice) = [].
Proof. split; [apply Route_hands_bare_group | reflexivity]. Qed.


(** C7: [g.Group(basePath, ms...)] returns a group whose chain is [g]'s
    chain followed by [ms], under [g]'s manager and at the joined path,
    and [g] reads as before: its base path is a value that nothing writes
    and the elements its middleware slice shows are the same after the
    call.  The same holds through any number of nested [Group] calls, and
    what a per-verb method of the innermost group appends for a
    registration ([routeHandlers]) leaves [g]'s chain as it was too. *)
Theorem Group_chain_and_frame (g : RouteGroup) (h : heap any) :
  wf_group h g ->
  (forall bp ms,
      chain (RouteGroup_Group g bp ms h).1 (RouteGroup_Group g bp ms h).2
        = chain h g ++ elems h ms /\
      basePath (RouteGroup_Group g bp ms h).2 = join (basePath g) bp /\
      server (RouteGroup_Group g bp ms h).2 = server g /\
      chain (RouteGroup_Group g bp ms h).1 g = chain h g) /\
  (forall steps,
      chain (nest g steps h).1 (nest g steps h).2 = chain h g ++ concat (map snd steps) /\
      basePath (nest g steps h).2 = fold_left join (map fst steps) (basePath g) /\
      chain (nest g steps h).1 g = chain h g) /\
  (forall steps handlers,
      chain (verb_heap (nest g steps h).2 handlers (nest g steps h).1) g = chain h g).
Proof.
  intros Hg. split; [|split].
  - intros bp ms.
    destruct (RouteGroup_Group_spec g bp ms h Hg) as (E & W & L & F).
    split; [exact E|]. rewrite RouteGroup_Group_eq at 1 2. cbn [snd NewRouteGroup basePath server].
    split; [reflexivity|]. split; [reflexivity|].
    apply (F (middlewares g) Hg). lia.
  - intros steps. destruct (nest_spec steps g h Hg) as (E & W & B & S & L & F).
    split; [exact E|]. split; [exact B|]. apply (F (middlewares g) Hg). lia.
  - intros steps handlers. destruct (nest_spec steps g h Hg) as (E & W & B & S & L & F).
    destruct (F (middlewares g) Hg ltac:(lia)) as [Wg Eg].
    unfold chain. rewrite verb_heap_frame; auto.
Qed.

(** *** Registration from the server down *)

(** [Route] through the interface. *)
Definition RouteManager_Route (m : RouteManager) (basePath : string)
    (fn : RouteManager -> state -> state) (st : state) : state :=
  match m with
  | ServerManager => Server_Route basePath fn st
  | GroupManager g => RouteGroup_Route g basePath fn st
  end.

(** [Route] calls nested one in the callback of the other, one per base
    path, around the innermost callback [body]. *)
Fixpoint routes (bases : list string) (body : RouteManager -> state -> state)
    (m : RouteManager) (st : state) : state :=
  match bases with
  | [] => body m st
  | b :: bases' => RouteManager_Route m b (routes bases' body) st
  end.

(** Groups made one after the other by [Group] of the same parent, each
    with its base path and the middleware passed. *)
Fixpoint siblings (g : RouteGroup) (specs : list (string * list any)) (h : heap any)
    : heap any * list RouteGroup :=
  match specs with
  | [] => (h, [])
  | (bp, ms) :: specs' =>
      let '(h', child) := call_Group (GroupManager g) bp ms h in
      let '(h'', rest) := siblings g specs' h' in
      (h'', child :: rest)
  end.

(** [Use] of the root server, declared elsewhere in the package: from the
    middleware received to the new state of the server and the error. *)
Variable Server_Use : list any -> Server -> Server * option error.

(** [Use] through the interface, called with [middlewares...]: a group
    hands the call to its manager. *)
Fixpoint RouteManager_Use (m : RouteManager) (ms : slice) (st : state)
    : state * option error :=
  match m with
  | ServerManager =>
      let '(srv', err) := Server_Use (elems (mem st) ms) (srv st) in
      ({| mem := mem st; srv := srv' |}, err)
  | GroupManager g => RouteManager_Use (server g) ms st
  end.

(** [g.Use(middlewares...)]. *)
Definition RouteGroup_Use (g : RouteGroup) (ms : slice) (st : state) : state * option error :=
  RouteManager_Use (GroupManager g) ms st.


Lemma call_Group_full_frame (g : RouteGroup) (bp : string) (ms : list any)
    (h : heap any) (t : slice) :
  len (middlewares g) = cap (middlewares g) -> wf_slice h t ->
  wf_slice (call_Group (GroupManager g) bp ms h).1 t /\
  elems (call_Group (GroupManager g) bp ms h).1 t = elems h t.
Proof.
  intros Hfull Ht. rewrite call_Group_eq, RouteGroup_Group_eq. cbn [fst].
  destruct (variadic_frame any h ms t Ht) as [Ht' Et].
  destruct (append_full_frame any any_zero growcap (variadic h ms).1 (middlewares g) t
              (elems (variadic h ms).1 (variadic h ms).2) Hfull Ht') as [W E].
  split; [exact W|]. now rewrite E.
Qed.

(** Children of one parent whose slice has no spare capacity: each shows
    the parent's chain followed by its own middleware after all of them
    are made, and every slice of the heap reads as before. *)
Lemma siblings_spec (g : RouteGroup) (specs : list (string * list any)) :
  forall h : heap any,
  wf_group h g -> len (middlewares g) = cap (middlewares g) ->
  Forall2 (fun spec kid =>
             chain (siblings g specs h).1 kid = chain h g ++ spec.2 /\
             wf_group (siblings g specs h).1 kid /\
             basePath kid = join (basePath g) spec.1 /\
             server kid = server g)
          specs (siblings g specs h).2 /\
  forall t, wf_slice h t ->
    wf_slice (siblings g specs h).1 t /\ elems (siblings g specs h).1 t = elems h t.
Proof.
  induction specs as [|[bp ms] specs IH]; intros h Hg Hfull.
  - split; [constructor | now intros t Ht].
  - cbn [siblings].
    destruct (call_Group_spec g bp ms h Hg) as (E & W & _ & B & S & _).
    pose proof (fun t => call_Group_full_frame g bp ms h t Hfull) as F.
    destruct (call_Group (GroupManager g) bp ms h) as [h' child]. cbn [fst snd] in *.
    destruct (F _ Hg) as [Hg' Eg].
    destruct (IH h' Hg' Hfull) as [IH1 IH2].
    destruct (siblings g specs h') as [h'' rest]. cbn [fst snd] in *.
    split.
    + constructor.
      * destruct (IH2 _ W) as [W' E']. unfold chain in *. cbn [snd].
        rewrite E', E. auto.
      * eapply Forall2_impl; [exact IH1|]. intros spec kid (C & Wk & Bk & Sk).
        unfold chain in *. rewrite C, Eg. auto.
    + intros t Ht. destruct (F t Ht) as [Wt Et]. destruct (IH2 t Wt) as [Wt' Et'].
      split; [exact Wt'|]. now rewrite Et'.
Qed.

(** X2: groups made one after the other by [Group] of one parent do not
    disturb each other when the parent's middleware slice has no spare
    capacity, its length being its capacity (the slice of a call that
    lists the middleware, [s.Group(base, m1, ..., mn)], is such a slice;
    a slice the caller passes with room left is not): after all of them
    are made each shows the parent's middleware followed by its own, at
    the joined base path, and under the server a per-verb method of any
    of them hands the server that chain followed by the handlers of the
    call, at the joined path. *)
Theorem sibling_groups_keep_chains (g : RouteGroup) (specs : list (string * list any))
    (h : heap any) :
  wf_group h g -> len (middlewares g) = cap (middlewares g) ->
  let made := siblings g specs h in
  Forall2 (fun spec kid =>
             chain made.1 kid = chain h g ++ spec.2 /\
             basePath kid = join (basePath g) spec.1 /\
             (server g = ServerManager ->
              forall v path handlers s,
                let r := call_verb v (GroupManager kid) path handlers
                           {| mem := made.1; srv := s |} in
                let sent := Server_register v (join (join (basePath g) spec.1) path)
                              (chain h g ++ spec.2 ++ handlers) s in
                srv r.1 = sent.1 /\ r.2 = sent.2))
          specs made.2.
Proof.
  intros W Hfull made. subst made.
  destruct (siblings_spec g specs h W Hfull) as [H _].
  eapply Forall2_impl; [exact H|]. intros spec [sv bp ms] (C & Wk & Bk & Sk).
  cbn [basePath server] in Bk, Sk. subst sv bp.
  split; [exact C|]. split; [reflexivity|]. intros Hsrv v path handlers s.
  rewrite Hsrv in *.
  pose proof (verb_through_group v (join (basePath g) spec.1) ms path handlers
                {| mem := (siblings g specs h).1; srv := s |} Wk) as Eq.
  cbn [mem srv] in Eq. unfold NewRouteGroup in *. cbv zeta. rewrite Eq. cbn [fst snd srv].
  rewrite C. now rewrite <- app_assoc.
Qed.

(** The group [s.Group(base, m1, ..., mn)] returns for middleware listed in
    the call: its slice holds them and has no spare capacity. *)
Lemma listed_group_full (base : string) (ms0 : list any) (h : heap any) :
  wf_group (call_Group ServerManager base ms0 h).1 (call_Group ServerManager base ms0 h).2 /\
  len (middlewares (call_Group ServerManager base ms0 h).2)
    = cap (middlewares (call_Group ServerManager base ms0 h).2) /\
  chain (call_Group ServerManager base ms0 h).1 (call_Group ServerManager base ms0 h).2 = ms0 /\
  server (call_Group ServerManager base ms0 h).2 = ServerManager.
Proof.
  unfold call_Group, RouteManager_Group, Server_Group, wf_group, chain.
  pose proof (variadic_wf any h ms0) as W. pose proof (variadic_elems any h ms0) as E.
  pose proof (variadic_full any h ms0) as Hfull.
  destruct (variadic h ms0) as [h0 s0]. cbn [fst snd middlewares NewRouteGroup server] in *.
  auto.
Qed.

(** X14: two groups made one after the other by [Group] of a parent whose
    middleware slice has room for the middleware of either: the second
    call writes its middleware into the backing array where the first
    call wrote its own.  The second group shows the parent's chain
    followed by its middleware; the first group, which showed the parent's
    chain followed by its own middleware, now shows the second's
    middleware in that place, as far as it reaches. *)
Theorem later_sibling_overwrites (g : RouteGroup) (pa pb : string) (ma mb : list any)
    (h : heap any) :
  wf_group h g ->
  len (middlewares g) + length ma <= cap (middlewares g) ->
  len (middlewares g) + length mb <= cap (middlewares g) ->
  let first := call_Group (GroupManager g) pa ma h in
  let second := call_Group (GroupManager g) pb mb first.1 in
  chain first.1 first.2 = chain h g ++ ma /\
  chain second.1 second.2 = chain h g ++ mb /\
  chain second.1 first.2 = chain h g ++ take (length ma) (mb ++ drop (length mb) ma).
Proof.
  intros Hg Ha Hb first second. subst first second.
  destruct (call_Group_spec g pa ma h Hg) as (E1 & _ & _ & _ & _ & F1).
  destruct (F1 (middlewares g) Hg ltac:(lia)) as [Hg1 Eg1].
  destruct (call_Group_spec g pb mb _ Hg1) as (E2 & _).
  split; [exact E1|]. split; [unfold chain in *; now rewrite E2, Eg1|].
  clear E1 E2 F1 Hg1 Eg1. unfold chain.
  rewrite (call_Group_eq g pb), RouteGroup_Group_eq. cbn [fst].
  rewrite (call_Group_eq g pa), RouteGroup_Group_eq. cbn [fst snd middlewares NewRouteGroup].
  rewrite !variadic_elems.
  destruct (variadic_frame any h ma _ Hg) as [Hg' Eg'].
  assert (V : forall (h0 : heap any) xs, exists ext, (variadic h0 xs).1 = h0 ++ ext).
  { intros h0 [|x xs]; [exists []; now rewrite app_nil_r | now exists [x :: xs]]. }
  destruct (V (append any any_zero growcap (variadic h ma).1 (middlewares g) ma).1 mb)
    as [ext ->].
  rewrite (append_twice_in_place any any_zero growcap) by assumption.
  now rewrite Eg'.
Qed.

(** What nested [Route] calls hand the innermost callback, below a group
    of the server without middleware. *)
Lemma routes_from_group (bases : list string) (body : RouteManager -> state -> state) :
  forall (base : string) (st : state),
  routes bases body (GroupManager (NewRouteGroup ServerManager base nil_slice)) st =
    body (GroupManager (NewRouteGroup ServerManager (fold_left join bases base) nil_slice)) st.
Proof.
  induction bases as [|b bases IH]; intros base [h s]; [reflexivity|].
  cbn [routes RouteManager_Route]. rewrite Route_hands_bare_group. cbn [mem srv].
  now rewrite IH.
Qed.

(** X3: [s.Route(b, fn)] of the server with further [Route] calls nested in
    the callbacks, one per base path: the innermost callback gets a group
    of the server at the base paths joined in order, with no middleware;
    a per-verb method called on it with [handlers...] hands the server
    exactly those handlers at that path joined with the route's. *)
Theorem Route_nesting_delivers (b : string) (bases : list string) (st : state) :
  (forall body,
      Server_Route b (routes bases body) st =
        body (GroupManager (NewRouteGroup ServerManager (fold_left join bases b) nil_slice)) st) /\
  (forall v path handlers,
      srv (Server_Route b (routes bases (fun r st' => (call_verb v r path handlers st').1)) st) =
        (Server_register v (join (fold_left join bases b) path) handlers (srv st)).1).
Proof.
  assert (R : forall body,
             Server_Route b (routes bases body) st =
               body (GroupManager (NewRouteGroup ServerManager (fold_left join bases b) nil_slice))
                    st).
  { intros body. unfold Server_Route, Server_Group. apply routes_from_group. }
  split; [exact R|]. intros v path handlers. rewrite R.
  pose proof (verb_through_group v (fold_left join bases b) nil_slice path handlers st
                (wf_nil_slice any (mem st))) as E.
  cbv zeta in E. rewrite E. reflexivity.
Qed.

Lemma RouteManager_Use_server :
  forall (m : RouteManager) (ms : slice) (st : state),
  RouteManager_Use m ms st = RouteManager_Use ServerManager ms st.
Proof.
  fix IH 1. intros [|[sv bp mws]] ms st; [reflexivity|].
  cbn [RouteManager_Use server]. apply IH.
Qed.

(** X4: [g.Use(middlewares...)] of a group, at any depth of nesting, is the
    root server's [Use] with the same middleware: it installs them on the
    server, writes nothing to the heap, and the chain of the group, which
    its later registrations put in front of their handlers, is as before. *)
Theorem Use_is_the_servers (g : RouteGroup) (ms : slice) (st : state) :
  RouteGroup_Use g ms st =
    ({| mem := mem st; srv := (Server_Use (elems (mem st) ms) (srv st)).1 |},
     (Server_Use (elems (mem st) ms) (srv st)).2) /\
  chain (mem (RouteGroup_Use g ms st).1) g = chain (mem st) g.
Proof.
  assert (E : RouteGroup_Use g ms st =
                ({| mem := mem st; srv := (Server_Use (elems (mem st) ms) (srv st)).1 |},
                 (Server_Use (elems (mem st) ms) (srv st)).2)).
  { unfold RouteGroup_Use. rewrite RouteManager_Use_server. cbn [RouteManager_Use].
    now destruct (Server_Use (elems (mem st) ms) (srv st)). }
  split; [exact E|]. now rewrite E.
Qed.

End Groups.

Arguments mem {any Server} s.
Arguments srv {any Server} s.
Arguments Build_state {any Server} mem srv.
Arguments chain {any} h g.
Arguments wf_group {any} h g.

(** *** Joined paths stay clean *)

(** Whether [s] holds two slashes in a row. *)
Fixpoint double_slash (s : string) : bool :=
  match s with
  | String a (String b _ as s') => (Ascii.eqb a "/" && Ascii.eqb b "/") || double_slash s'
  | _ => false
  end.

Lemma HasPrefix_app_l (s p x : string) : HasPrefix s (p +:+ x) = true -> HasPrefix s p = true.
Proof.
  revert s. induction p as [|c p IH]; intros s H; [reflexivity|].
  rewrite str_app_cons in H. destruct s as [|d s]; [discriminate|].
  cbn [HasPrefix] in *. destruct (Ascii.eqb c d); [now apply IH | discriminate].
Qed.

Lemma ends_with_sep_snoc (s : string) :
  ends_with_sep s = true -> exists x, s = x +:+ separator.
Proof.
  induction s as [|c s IH]; [discriminate|]. destruct s as [|d s].
  - cbn [ends_with_sep]. intros H. apply Ascii.eqb_eq in H as ->. now exists "".
  - intros H. destruct (IH H) as [x E]. exists (String c x). rewrite str_app_cons. now rewrite <- E.
Qed.

Lemma ends_with_sep_app (a b : string) :
  b <> "" -> ends_with_sep (a +:+ b) = ends_with_sep b.
Proof.
  intros Hb. induction a as [|c a IH]; [reflexivity|].
  rewrite str_app_cons. destruct (a +:+ b) as [|d r] eqn:E.
  - exfalso. revert E. now apply app_not_empty_r.
  - exact IH.
Qed.

Lemma double_slash_cons (c : ascii) (s : string) :
  double_slash (String c s) = (Ascii.eqb c "/" && HasPrefix s separator) || double_slash s.
Proof.
  destruct s as [|d s]; cbn [double_slash HasPrefix separator].
  - now rewrite andb_false_r.
  - rewrite (Ascii.eqb_sym "/"%char d). now destruct (Ascii.eqb d "/").
Qed.

Lemma HasPrefix_sep_app (a b : string) :
  HasPrefix (a +:+ b) separator =
    match a with "" => HasPrefix b separator | _ => HasPrefix a separator end.
Proof. destruct a as [|c a]; [reflexivity|]. rewrite str_app_cons. reflexivity. Qed.

Lemma double_slash_app (a b : string) :
  double_slash (a +:+ b) =
    double_slash a || double_slash b || (ends_with_sep a && HasPrefix b separator).
Proof.
  induction a as [|c a IH]; [cbn; now rewrite orb_false_r|].
  rewrite str_app_cons, !double_slash_cons, IH, HasPrefix_sep_app.
  destruct a as [|d a].
  - change (HasPrefix "" separator) with false. change (double_slash "") with false.
    change (ends_with_sep "") with false.
    change (ends_with_sep (String c "")) with (Ascii.eqb c "/").
    destruct (Ascii.eqb c "/"), (HasPrefix b separator), (double_slash b); reflexivity.
  - change (ends_with_sep (String c (String d a))) with (ends_with_sep (String d a)).
    destruct (Ascii.eqb c "/" && HasPrefix (String d a) separator),
      (double_slash (String d a)), (double_slash b),
      (ends_with_sep (String d a) && HasPrefix b separator); reflexivity.
Qed.

Lemma TrimSuffix_clean (s : string) :
  double_slash s = false ->
  double_slash (TrimSuffix s separator) = false /\ ends_with_sep (TrimSuffix s separator) = false.
Proof.
  intros H. destruct (ends_with_sep s) eqn:E.
  - destruct (ends_with_sep_snoc s E) as [x ->]. rewrite TrimSuffix_sep_snoc.
    rewrite double_slash_app in H. apply orb_false_iff in H as [H1 H2].
    apply orb_false_iff in H1 as [H1 _]. split; [exact H1|].
    cbn [HasPrefix separator] in H2. rewrite Ascii.eqb_refl in H2.
    now rewrite andb_true_r in H2.
  - rewrite (TrimSuffix_sep_id s E). now split.
Qed.

Lemma TrimPrefix_clean (s : string) :
  double_slash s = false ->
  double_slash (TrimPrefix s separator) = false /\
  HasPrefix (TrimPrefix s separator) separator = false.
Proof.
  intros H. destruct s as [|c s]; [now split|].
  rewrite TrimPrefix_sep_cons. rewrite double_slash_cons in H.
  apply orb_false_iff in H as [H1 H2].
  destruct (Ascii.eqb_spec "/"%char c) as [<- | Hc].
  - split; [exact H2|]. now rewrite Ascii.eqb_refl in H1.
  - split; [rewrite double_slash_cons, H2; now rewrite H1|].
    cbn [HasPrefix separator]. destruct (Ascii.eqb_spec "/"%char c); [contradiction|reflexivity].
Qed.

Lemma HasPrefix_TrimSuffix (s suffix : string) : HasPrefix s (TrimSuffix s suffix) = true.
Proof.
  induction s as [|c s IH]; cbn [TrimSuffix].
  - now destruct (String.eqb "" suffix).
  - destruct (String.eqb (String c s) suffix); [reflexivity|].
    cbn [HasPrefix]. now rewrite Ascii.eqb_refl.
Qed.

Lemma fold_join_assoc (steps : list string) (a b : string) :
  fold_left join steps (join a b) = join a (fold_left join steps b).
Proof.
  revert b. induction steps as [|c steps IH]; intros b; [reflexivity|].
  cbn [fold_left]. now rewrite <- IH, join_assoc.
Qed.

(** X5: whatever is registered through a group lies under the group's base
    path: the joined path starts with the base path without its trailing
    slash, also through any number of nested base paths; and joining never
    brings in a doubled slash: with none in the base path and none in the
    relative path there is none in the joined path. *)
Theorem fullPath_prefix_and_clean :
  (forall g path, HasPrefix (fullPath g path) (TrimSuffix (basePath g) "/") = true) /\
  (forall base steps path,
      HasPrefix (join (fold_left join steps base) path) (TrimSuffix base "/") = true) /\
  (forall g path,
      double_slash (basePath g) = false -> double_slash path = false ->
      double_slash (fullPath g path) = false).
Proof.
  assert (P : forall base path, HasPrefix (join base path) (TrimSuffix base separator) = true).
  { intros base path. destruct (String.eqb path "/" || String.eqb path "") eqn:E.
    - apply trivial_path in E. rewrite (join_trivial _ _ E). apply HasPrefix_TrimSuffix.
    - rewrite join_proper; [| intros ->; discriminate E | intros ->; discriminate E].
      rewrite str_app_assoc. apply HasPrefix_app. }
  split; [intros g path; apply P|]. split.
  - intros base steps path.
    assert (E : join (fold_left join steps base) path
                = join base (fold_left join (steps ++ [path]) "")).
    { rewrite <- fold_join_assoc, fold_left_app. cbn [fold_left].
      now rewrite (join_trivial base "") by now right. }
    rewrite E. apply P.
  - intros g path Hb Hp. change (fullPath g path) with (join (basePath g) path).
    destruct (String.eqb path "/" || String.eqb path "") eqn:E.
    + apply trivial_path in E. now rewrite (join_trivial _ _ E).
    + rewrite join_proper; [| intros ->; discriminate E | intros ->; discriminate E].
      destruct (TrimSuffix_clean _ Hb) as [B1 B2]. destruct (TrimPrefix_clean _ Hp) as [P1 P2].
      rewrite !double_slash_app, B1, P1, P2, B2. now rewrite !andb_false_r.
Qed.

End RouteGroups.

(** ** Route groups at work *)
Module GroupScenarios.
Import GoStrings GoErrors Slices RouteGroups.

(** The growth rule of the Go runtime ([nextslicecap]), without the
    rounding to an allocation size class; for the 16-byte elements of a
    slice of [any] that rounding leaves capacities up to 16 as they are. *)
Fixpoint grow_loop (fuel newcap newLen : nat) : nat :=
  match fuel with
  | 0 => newcap
  | S fuel' =>
      let newcap' := newcap + (newcap + 3 * 256) / 4 in
      if newLen <=? newcap' then newcap' else grow_loop fuel' newcap' newLen
  end.

Definition nextslicecap (oldCap newLen : nat) : nat :=
  let doublecap := oldCap + oldCap in
  if doublecap <? newLen then newLen
  else if oldCap <? 256 then doublecap
  else grow_loop newLen oldCap newLen.

(** Handler-like values, by name. *)
Definition named : Type := string.

(** A server that keeps what its per-verb methods receive. *)
Definition received : Type := list (Method * string * list named).

Definition receive (v : Method) (endpoint : string) (handlers : list named)
    (s : received) : received * option error :=
  (s ++ [(v, endpoint, handlers)], None).

Definition st0 : state named received := {| mem := []; srv := [] |}.

Definition Group' := call_Group named "nil" nextslicecap.
Definition Get' := call_verb named "nil" nextslicecap received receive MethodGet.

(** [g := s.Group("/a", m1); g.Route("/b", func(r) { r.Get("/c", h) })]. *)
Definition route_in_group : received :=
  let '(h1, g) := Group' ServerManager "/a" ["m1"] (mem st0) in
  srv (RouteGroup_Route named "nil" nextslicecap received g "/b"
         (fun r st => (Get' r "/c" ["h"] st).1)
         {| mem := h1; srv := srv st0 |}).

(** [api := s.Group("/api", m1, m2, m3); v1 := api.Group("/v1", m4);
    a := v1.Group("/a", m5); b := v1.Group("/b", m6); a.Get("/x", h)]. *)
Definition sibling_groups : received :=
  let '(h1, api) := Group' ServerManager "/api" ["m1"; "m2"; "m3"] (mem st0) in
  let '(h2, v1) := Group' (GroupManager api) "/v1" ["m4"] h1 in
  let '(h3, a) := Group' (GroupManager v1) "/a" ["m5"] h2 in
  let '(h4, b) := Group' (GroupManager v1) "/b" ["m6"] h3 in
  srv (Get' (GroupManager a) "/x" ["h"] {| mem := h4; srv := srv st0 |}).1.

(** [api := s.Group("/api", m1, m2, m3)]. *)
Definition api_heap : heap named := (Group' ServerManager "/api" ["m1"; "m2"; "m3"] []).1.
Definition api_group : RouteGroup := (Group' ServerManager "/api" ["m1"; "m2"; "m3"] []).2.

(** C1 (the code departs from it): a route registered through a group
    that [Route] made inside a group with middleware reaches the server
    without that middleware, and a route registered through a group whose
    sibling was made after it by [Group] of the same parent reaches the
    server with the sibling's middleware in the place of its own, since
    both were written behind the parent's elements in one backing array. *)
Theorem delivered_list_misses_ancestor_middleware :
  route_in_group = [(MethodGet, "/a/b/c", ["h"])] /\
  sibling_groups = [(MethodGet, "/api/v1/a/x", ["m1"; "m2"; "m3"; "m4"; "m6"; "h"])].
Proof. split; reflexivity. Qed.

(** The nesting property at work: two [Group] calls below [api]. *)
Lemma Group_chain_and_frame_witness :
  wf_group api_heap api_group /\
  chain (nest named "nil" nextslicecap api_group [("/v1", ["m4"]); ("a/", ["m5"; "m6"])] api_heap).1
        (nest named "nil" nextslicecap api_group [("/v1", ["m4"]); ("a/", ["m5"; "m6"])] api_heap).2
    = ["m1"; "m2"; "m3"; "m4"; "m5"; "m6"] /\
  basePath (nest named "nil" nextslicecap api_group [("/v1", ["m4"]); ("a/", ["m5"; "m6"])] api_heap).2
    = "/api/v1/a/" /\
  chain (nest named "nil" nextslicecap api_group [("/v1", ["m4"]); ("a/", ["m5"; "m6"])] api_heap).1
        api_group
    = ["m1"; "m2"; "m3"].
Proof.
  assert (W : wf_group api_heap api_group).
  { split; [simpl; lia|]. right. eexists. split; reflexivity. }
  split; [exact W|].
  destruct (Group_chain_and_frame named "nil" nextslicecap api_group api_heap W)
    as (_ & H & _).
  exact (H [("/v1", ["m4"]); ("a/", ["m5"; "m6"])]).
Defined.

(** [api := s.Group("/api", m1, m2, m3); a := api.Group("/a", m5);
    b := api.Group("/b", m6)]: [api] lists its middleware, so its slice
    is full and [a] and [b] each get an array of their own. *)
Definition api_children : heap named * list RouteGroup :=
  siblings named "nil" nextslicecap api_group [("/a", ["m5"]); ("/b", ["m6"])] api_heap.

Lemma sibling_groups_keep_chains_witness :
  wf_group api_heap api_group /\
  len (middlewares api_group) = cap (middlewares api_group) /\
  Forall2 (fun spec kid => chain api_children.1 kid = ["m1"; "m2"; "m3"] ++ spec.2)
          [("/a", ["m5"]); ("/b", ["m6"])] api_children.2 /\
  map (chain api_children.1) api_children.2 =
    [["m1"; "m2"; "m3"; "m5"]; ["m1"; "m2"; "m3"; "m6"]] /\
  map basePath api_children.2 = ["/api/a"; "/api/b"].
Proof.
  assert (W : wf_group api_heap api_group).
  { split; [simpl; lia|]. right. eexists. split; reflexivity. }
  split; [exact W|]. split; [reflexivity|]. split; [|split; reflexivity].
  eapply Forall2_impl;
    [exact (sibling_groups_keep_chains named "nil" nextslicecap received receive
              api_group [("/a", ["m5"]); ("/b", ["m6"])] api_heap W eq_refl)|].
  intros spec kid (C & _). exact C.
Defined.

(** [v1 := api.Group("/v1", m4)]: four elements in an array of six. *)
Definition v1_heap : heap named := (Group' (GroupManager api_group) "/v1" ["m4"] api_heap).1.
Definition v1_group : RouteGroup := (Group' (GroupManager api_group) "/v1" ["m4"] api_heap).2.

(** [a := v1.Group("/a", m5); b := v1.Group("/b", m6)]: [a] shows [m6]. *)
Lemma later_sibling_overwrites_witness :
  wf_group v1_heap v1_group /\
  len (middlewares v1_group) + 1 <= cap (middlewares v1_group) /\
  chain (Group' (GroupManager v1_group) "/b" ["m6"]
           (Group' (GroupManager v1_group) "/a" ["m5"] v1_heap).1).1
        (Group' (GroupManager v1_group) "/a" ["m5"] v1_heap).2
    = ["m1"; "m2"; "m3"; "m4"; "m6"].
Proof.
  assert (W : wf_group v1_heap v1_group).
  { split; [simpl; lia|]. right. eexists. split; reflexivity. }
  split; [exact W|]. split; [simpl; lia|].
  destruct (later_sibling_overwrites named "nil" nextslicecap v1_group "/a" "/b"
              ["m5"] ["m6"] v1_heap W ltac:(simpl; lia) ltac:(simpl; lia))
    as (_ & _ & H).
  exact H.
Defined.

End GroupScenarios.

(** ** Path parameter binding ([Context.ParamsParser], [pkg/server/context.go]) *)
Module Params.
Import GoStrings GoErrors.

(** *** Pattern translation: the two [ReplaceAllString] calls *)

(** The longest run of characters other than ['/'] at the head of [s],
    the match of [[^/]*], and what follows it. *)
Fixpoint span_segment (s : string) : string * string :=
  match s with
  | "" => ("", "")
  | String c rest =>
      if Ascii.eqb c "/"%char then ("", s)
      else let '(run, tail) := span_segment rest in (String c run, tail)
  end.

(** The part of [run] before its last ['}'], if it has one. *)
Fixpoint before_last_close (run : string) : option string :=
  match run with
  | "" => None
  | String c rest =>
      match before_last_close rest with
      | Some cap => Some (String c cap)
      | None => if Ascii.eqb c "}"%char then Some "" else None
      end
  end.

(** What [([^/]+)}] captures right behind a ['{']: the greedy run gives
    back characters until a ['}'] follows it, and it keeps at least one. *)
Definition brace_capture (rest : string) : option string :=
  match before_last_close (span_segment rest).1 with
  | Some (String c cap) => Some (String c cap)
  | _ => None
  end.

(** What [([^/]+)] captures right behind a [':']. *)
Definition colon_capture (rest : string) : option string :=
  match (span_segment rest).1 with
  | String c cap => Some (String c cap)
  | "" => None
  end.

(** The replacement [(?P<$1>[^/]+)] with the capture for [$1]. *)
Definition named_group (name : string) : string := "(?P<" +:+ name +:+ ">[^/]+)".

(** [regexp.MustCompile(`{([^/]+)}`).ReplaceAllString(s, `(?P<$1>[^/]+)`)]:
    matches are taken leftmost first and do not overlap; [skipn] counts
    the characters of the current match still to pass. *)
Fixpoint replace_braces (skipn : nat) (s : string) : string :=
  match s with
  | "" => ""
  | String c rest =>
      match skipn with
      | S n => replace_braces n rest
      | 0 =>
          if Ascii.eqb c "{"%char then
            match brace_capture rest with
            | Some name => named_group name +:+ replace_braces (S (String.length name)) rest
            | None => String c (replace_braces 0 rest)
            end
          else String c (replace_braces 0 rest)
      end
  end.

(** [regexp.MustCompile(`:([^/]+)`).ReplaceAllString(s, `(?P<$1>[^/]+)`)]. *)
Fixpoint replace_colons (skipn : nat) (s : string) : string :=
  match s with
  | "" => ""
  | String c rest =>
      match skipn with
      | S n => replace_colons n rest
      | 0 =>
          if Ascii.eqb c ":"%char then
            match colon_capture rest with
            | Some name => named_group name +:+ replace_colons (String.length name) rest
            | None => String c (replace_colons 0 rest)
            end
          else String c (replace_colons 0 rest)
      end
  end.

(** The pattern handed to the last [regexp.MustCompile]. *)
Definition translate (pattern : string) : string :=
  replace_colons 0 (replace_braces 0 pattern).

(** *** Patterns written as segments *)

(** A letter, a digit or an underscore: the characters of a group name. *)
Definition is_word (c : ascii) : bool :=
  let n := nat_of_ascii c in
  ((48 <=? n) && (n <=? 57)) || ((65 <=? n) && (n <=? 90)) ||
  ((97 <=? n) && (n <=? 122)) || (n =? 95).

Fixpoint all_word (s : string) : bool :=
  match s with
  | "" => true
  | String c rest => is_word c && all_word rest
  end.

Definition valid_name (name : string) : bool :=
  negb (String.eqb name "") && all_word name.

(** Text without ['/'], [':'] or ['{']. *)
Fixpoint plain (s : string) : bool :=
  match s with
  | "" => true
  | String c rest =>
      negb (Ascii.eqb c "/"%char) && negb (Ascii.eqb c ":"%char) &&
      negb (Ascii.eqb c "{"%char) && plain rest
  end.

(** A segment of a registered pattern: static text, [:name] or [{name}]. *)
Inductive segment : Type :=
| Static (text : string)
| Colon (name : string)
| Brace (name : string).

Definition written (seg : segment) : string :=
  match seg with
  | Static text => text
  | Colon name => ":" +:+ name
  | Brace name => "{" +:+ name +:+ "}"
  end.

Definition group_of (seg : segment) : string :=
  match seg with
  | Static text => text
  | Colon name | Brace name => named_group name
  end.

Definition well_formed (seg : segment) : bool :=
  match seg with
  | Static text => plain text
  | Colon name | Brace name => valid_name name
  end.

(** The pattern of the segments, each behind a slash, as it is registered
    and as the expression it is to become. *)
Fixpoint pattern_of (segs : list segment) : string :=
  match segs with
  | [] => ""
  | seg :: rest => "/" +:+ written seg +:+ pattern_of rest
  end.

Fixpoint expression_of (segs : list segment) : string :=
  match segs with
  | [] => ""
  | seg :: rest => "/" +:+ group_of seg +:+ expression_of rest
  end.

(** *** Properties of the translation *)

(** [s] without the character [c]. *)
Fixpoint lacks (c : ascii) (s : string) : bool :=
  match s with
  | "" => true
  | String d rest => negb (Ascii.eqb d c) && lacks c rest
  end.

(** The end of a segment: the end of the pattern, or a slash. *)
Definition boundary (rest : string) : bool :=
  match rest with
  | "" => true
  | String c _ => Ascii.eqb c "/"%char
  end.

Lemma lacks_cons (c d : ascii) (s : string) :
  lacks c (String d s) = true -> Ascii.eqb d c = false /\ lacks c s = true.
Proof.
  cbn [lacks]. intros H. apply andb_true_iff in H as [Hd Hs].
  apply negb_true_iff in Hd. auto.
Qed.

Lemma lacks_app (c : ascii) (a b : string) :
  lacks c (a +:+ b) = lacks c a && lacks c b.
Proof.
  induction a as [|d a IH]; [reflexivity|].
  rewrite str_app_cons. cbn [lacks]. now rewrite IH, andb_assoc.
Qed.

Lemma all_word_lacks (c : ascii) (s : string) :
  is_word c = false -> all_word s = true -> lacks c s = true.
Proof.
  intros Hc. induction s as [|d s IH]; [reflexivity|].
  cbn [all_word lacks]. intros H. apply andb_true_iff in H as [Hd Hs].
  rewrite (IH Hs), andb_true_r. apply negb_true_iff.
  destruct (Ascii.eqb_spec d c) as [-> | _]; [congruence | reflexivity].
Qed.

Lemma plain_lacks (s : string) :
  plain s = true ->
  lacks "/" s = true /\ lacks ":" s = true /\ lacks "{" s = true.
Proof.
  induction s as [|c s IH]; [now auto|].
  cbn [plain lacks]. intros H.
  apply andb_true_iff in H as [H Hs]. apply andb_true_iff in H as [H H3].
  apply andb_true_iff in H as [H1 H2].
  destruct (IH Hs) as (I1 & I2 & I3). rewrite H1, H2, H3, I1, I2, I3. auto.
Qed.

Lemma valid_name_word (name : string) :
  valid_name name = true -> name <> "" /\ all_word name = true.
Proof.
  unfold valid_name. intros H. apply andb_true_iff in H as [H1 H2].
  split; [|exact H2]. apply negb_true_iff in H1. now apply String.eqb_neq.
Qed.

Lemma named_group_lacks_colon (name : string) :
  all_word name = true -> lacks ":" (named_group name) = true.
Proof.
  intros H. unfold named_group. rewrite !lacks_app.
  now rewrite (all_word_lacks ":" name eq_refl H).
Qed.

Lemma pattern_of_boundary (segs : list segment) : boundary (pattern_of segs) = true.
Proof. destruct segs; reflexivity. Qed.

Lemma span_segment_app (s rest : string) :
  lacks "/" s = true -> boundary rest = true -> (span_segment (s +:+ rest)).1 = s.
Proof.
  intros Hs Hb. induction s as [|c s IH].
  - rewrite str_app_nil_l. destruct rest as [|d rest]; [reflexivity|].
    cbn [boundary] in Hb. cbn [span_segment]. now rewrite Hb.
  - apply lacks_cons in Hs as [Hc Hs]. rewrite str_app_cons. cbn [span_segment].
    rewrite Hc. specialize (IH Hs). destruct (span_segment (s +:+ rest)).
    cbn [fst] in *. now rewrite IH.
Qed.

Lemma before_last_close_snoc (name : string) :
  lacks "}" name = true -> before_last_close (name +:+ "}") = Some name.
Proof.
  induction name as [|c name IH]; intros H; [reflexivity|].
  apply lacks_cons in H as [_ H]. rewrite str_app_cons. cbn [before_last_close].
  now rewrite (IH H).
Qed.

Lemma brace_capture_segment (name rest : string) :
  valid_name name = true -> boundary rest = true ->
  brace_capture (name +:+ "}" +:+ rest) = Some name.
Proof.
  intros Hn Hb. apply valid_name_word in Hn as [Hne Hw]. unfold brace_capture.
  rewrite <- str_app_assoc. rewrite span_segment_app; [| |exact Hb].
  - rewrite before_last_close_snoc by now apply all_word_lacks.
    destruct name; [congruence | reflexivity].
  - rewrite lacks_app. now rewrite (all_word_lacks "/" name eq_refl Hw).
Qed.

Lemma colon_capture_segment (name rest : string) :
  valid_name name = true -> boundary rest = true ->
  colon_capture (name +:+ rest) = Some name.
Proof.
  intros Hn Hb. apply valid_name_word in Hn as [Hne Hw]. unfold colon_capture.
  rewrite span_segment_app; [| |exact Hb].
  - destruct name; [congruence | reflexivity].
  - now apply all_word_lacks.
Qed.

Lemma replace_braces_lacks (s rest : string) :
  lacks "{" s = true -> replace_braces 0 (s +:+ rest) = s +:+ replace_braces 0 rest.
Proof.
  induction s as [|c s IH]; intros H; [reflexivity|].
  apply lacks_cons in H as [Hc Hs]. rewrite !str_app_cons. cbn [replace_braces].
  now rewrite Hc, (IH Hs).
Qed.

Lemma replace_colons_lacks (s rest : string) :
  lacks ":" s = true -> replace_colons 0 (s +:+ rest) = s +:+ replace_colons 0 rest.
Proof.
  induction s as [|c s IH]; intros H; [reflexivity|].
  apply lacks_cons in H as [Hc Hs]. rewrite !str_app_cons. cbn [replace_colons].
  now rewrite Hc, (IH Hs).
Qed.

Lemma replace_braces_skip (s rest : string) :
  replace_braces (String.length s) (s +:+ rest) = replace_braces 0 rest.
Proof.
  induction s as [|c s IH]; [reflexivity|].
  rewrite str_app_cons. cbn [String.length replace_braces]. exact IH.
Qed.

Lemma replace_colons_skip (s rest : string) :
  replace_colons (String.length s) (s +:+ rest) = replace_colons 0 rest.
Proof.
  induction s as [|c s IH]; [reflexivity|].
  rewrite str_app_cons. cbn [String.length replace_colons]. exact IH.
Qed.

(** A braced segment becomes its named group. *)
Lemma replace_braces_segment (name rest : string) :
  valid_name name = true -> boundary rest = true ->
  replace_braces 0 (("{" +:+ name +:+ "}") +:+ rest) =
    named_group name +:+ replace_braces 0 rest.
Proof.
  intros Hn Hb. rewrite !str_app_assoc. rewrite str_app_cons, str_app_nil_l.
  cbn [replace_braces]. rewrite Ascii.eqb_refl.
  rewrite (brace_capture_segment name rest Hn Hb). f_equal.
  replace (S (String.length name)) with (String.length (name +:+ "}"))
    by (rewrite str_length_app; simpl; lia).
  rewrite <- str_app_assoc. apply replace_braces_skip.
Qed.

(** A colon segment becomes its named group. *)
Lemma replace_colons_segment (name rest : string) :
  valid_name name = true -> boundary rest = true ->
  replace_colons 0 ((":" +:+ name) +:+ rest) =
    named_group name +:+ replace_colons 0 rest.
Proof.
  intros Hn Hb. rewrite !str_app_assoc. rewrite str_app_cons, str_app_nil_l.
  cbn [replace_colons]. rewrite Ascii.eqb_refl.
  rewrite (colon_capture_segment name rest Hn Hb). f_equal.
  apply replace_colons_skip.
Qed.

(** The pattern after the first pass: the braced segments replaced. *)
Fixpoint braces_replaced (segs : list segment) : string :=
  match segs with
  | [] => ""
  | seg :: rest =>
      "/" +:+ match seg with Brace name => named_group name | _ => written seg end
          +:+ braces_replaced rest
  end.

Lemma replace_braces_pattern (segs : list segment) :
  Forall (fun seg => well_formed seg = true) segs ->
  replace_braces 0 (pattern_of segs) = braces_replaced segs.
Proof.
  induction 1 as [|seg segs Hseg _ IH]; [reflexivity|].
  cbn [pattern_of braces_replaced].
  rewrite (replace_braces_lacks "/" _ eq_refl). f_equal.
  destruct seg as [text | name | name]; cbn [well_formed written] in *.
  - destruct (plain_lacks _ Hseg) as (_ & _ & H).
    now rewrite (replace_braces_lacks _ _ H), IH.
  - apply valid_name_word in Hseg as [_ Hw].
    rewrite replace_braces_lacks, IH; [reflexivity|].
    rewrite lacks_app. now rewrite (all_word_lacks "{" name eq_refl Hw).
  - rewrite <- IH. apply replace_braces_segment; [exact Hseg|].
    apply pattern_of_boundary.
Qed.

Lemma braces_replaced_boundary (segs : list segment) : boundary (braces_replaced segs) = true.
Proof. destruct segs; reflexivity. Qed.

Lemma replace_colons_pattern (segs : list segment) :
  Forall (fun seg => well_formed seg = true) segs ->
  replace_colons 0 (braces_replaced segs) = expression_of segs.
Proof.
  induction 1 as [|seg segs Hseg _ IH]; [reflexivity|].
  cbn [expression_of braces_replaced].
  rewrite (replace_colons_lacks "/" _ eq_refl). f_equal.
  destruct seg as [text | name | name]; cbn [well_formed written group_of] in *.
  - destruct (plain_lacks _ Hseg) as (_ & H & _).
    now rewrite (replace_colons_lacks _ _ H), IH.
  - rewrite <- IH. apply replace_colons_segment; [exact Hseg|].
    apply braces_replaced_boundary.
  - apply valid_name_word in Hseg as [_ Hw].
    now rewrite (replace_colons_lacks _ _ (named_group_lacks_colon _ Hw)), IH.
Qed.

(** The translation of a pattern of well-formed segments: every named
    segment, of either style, has become the group of its name, and the
    static text stands as it was. *)
Lemma translate_segments (segs : list segment) :
  Forall (fun seg => well_formed seg = true) segs ->
  translate (pattern_of segs) = expression_of segs.
Proof.
  intros H. unfold translate.
  now rewrite (replace_braces_pattern segs H), (replace_colons_pattern segs H).
Qed.

(** *** [strconv] *)

Definition digit (c : ascii) : option Z :=
  let n := nat_of_ascii c in
  if (48 <=? n) && (n <=? 57) then Some (Z.of_nat (n - 48)) else None.

Fixpoint digits (acc : Z) (s : string) : option Z :=
  match s with
  | "" => Some acc
  | String c rest =>
      match digit c with
      | Some d => digits (10 * acc + d) rest
      | None => None
      end
  end.

(** The size of [int] and [uint], for a bit size of 0. *)
Definition IntSize : Z := 64.

Definition bits_of (bitSize : Z) : Z := if (bitSize =? 0)%Z then IntSize else bitSize.

(** [strconv.ParseUint(s, 10, bitSize)]; [None] is an error. *)
Definition ParseUint (s : string) (bitSize : Z) : option Z :=
  match s with
  | "" => None
  | _ =>
      match digits 0 s with
      | Some n => if (n <? 2 ^ bits_of bitSize)%Z then Some n else None
      | None => None
      end
  end.

(** [strconv.ParseInt(s, 10, bitSize)]; [None] is an error. *)
Definition ParseInt (s : string) (bitSize : Z) : option Z :=
  match s with
  | "" => None
  | String c rest =>
      let neg := Ascii.eqb c "-"%char in
      let body := if Ascii.eqb c "+"%char || neg then rest else s in
      match body with
      | "" => None
      | _ =>
          match digits 0 body with
          | Some un =>
              let cutoff := (2 ^ (bits_of bitSize - 1))%Z in
              if neg then (if (un <=? cutoff)%Z then Some (- un)%Z else None)
              else (if (un <? cutoff)%Z then Some un else None)
          | None => None
          end
      end
  end.

(** [strconv.Atoi(s)]. *)
Definition Atoi (s : string) : option Z := ParseInt s 0.

(** [strconv.ParseBool(s)]. *)
Definition ParseBool (s : string) : option bool :=
  if existsb (String.eqb s) ["1"; "t"; "T"; "TRUE"; "true"; "True"] then Some true
  else if existsb (String.eqb s) ["0"; "f"; "F"; "FALSE"; "false"; "False"] then Some false
  else None.

(** *** The destination structure, as [reflect] shows it *)

(** [reflect.Kind]: the kinds the switch names, and any other by name. *)
Inductive Kind : Type :=
| KString
| KInt | KInt8 | KInt16 | KInt32 | KInt64
| KUint | KUint8 | KUint16 | KUint32 | KUint64
| KFloat32 | KFloat64
| KBool
| KOther (name : string).

Section Binder.

(** Floating-point numbers and [strconv.ParseFloat(s, bitSize)]. *)
Variable float : Type.
Variable ParseFloat : string -> Z -> option float.

(** The regular expression engine: [regexp.MustCompile] ([None] when it
    panics), [FindStringSubmatch] ([None] for a nil result) and
    [SubexpNames]. *)
Variable Regexp : Type.
Variable MustCompile : string -> option Regexp.
Variable FindStringSubmatch : Regexp -> string -> option (list string).
Variable SubexpNames : Regexp -> list string.

(** What a field holds. *)
Inductive value : Type :=
| StringVal (s : string)
| IntVal (n : Z)
| UintVal (n : Z)
| FloatVal (x : float)
| BoolVal (b : bool)
| OtherVal.

(** A field of the structure: its declared name, the value of the
    [param] key of its tag if the tag has one, its kind, whether
    [field.IsValid() && field.CanSet()], and what it holds. *)
Record field : Type := {
  Name : string;
  Tag : option string;
  kind : Kind;
  CanSet : bool;
  held : value
}.

Definition with_value (f : field) (v : value) : field :=
  {| Name := Name f; Tag := Tag f; kind := kind f; CanSet := CanSet f; held := v |}.

(** [fieldType.Tag.Get("param")], replaced by the name when empty. *)
Definition paramName (f : field) : string :=
  let tag := default "" (Tag f) in
  if String.eqb tag "" then Name f else tag.

Definition convert_error (paramValue target : string) : error :=
  errorString ("erro ao converter '" +:+ paramValue +:+ "' para " +:+ target).

Definition unsupported_error (kind_name : string) : error :=
  errorString ("tipo não suportado: " +:+ kind_name).

Definition parsed {T : Type} (r : option T) (wrap : T -> value)
    (paramValue target : string) : value + error :=
  match r with
  | Some x => inl (wrap x)
  | None => inr (convert_error paramValue target)
  end.

(** The switch on [field.Kind()]: the value to set, or the error. *)
Definition coerce (k : Kind) (paramValue : string) : value + error :=
  match k with
  | KString => inl (StringVal paramValue)
  | KInt => parsed (Atoi paramValue) IntVal paramValue "int"
  | KInt8 => parsed (ParseInt paramValue 8) IntVal paramValue "int8"
  | KInt16 => parsed (ParseInt paramValue 16) IntVal paramValue "int16"
  | KInt32 => parsed (ParseInt paramValue 32) IntVal paramValue "int32"
  | KInt64 => parsed (ParseInt paramValue 64) IntVal paramValue "int64"
  | KUint => parsed (ParseUint paramValue 0) UintVal paramValue "uint"
  | KUint8 => parsed (ParseUint paramValue 8) UintVal paramValue "uint8"
  | KUint16 => parsed (ParseUint paramValue 16) UintVal paramValue "uint16"
  | KUint32 => parsed (ParseUint paramValue 32) UintVal paramValue "uint32"
  | KUint64 => parsed (ParseUint paramValue 64) UintVal paramValue "uint64"
  | KFloat32 => parsed (ParseFloat paramValue 32) FloatVal paramValue "float32"
  | KFloat64 => parsed (ParseFloat paramValue 64) FloatVal paramValue "float64"
  | KBool => parsed (ParseBool paramValue) BoolVal paramValue "bool"
  | KOther name => inr (unsupported_error name)
  end.

(** The loop over [regex.SubexpNames()] filling [params], from index [i];
    [None] when [match[i]] is out of range. *)
Fixpoint collect (names : list string) (i : nat) (matched : list string)
    (params : gmap string string) : option (gmap string string) :=
  match names with
  | [] => Some params
  | name :: names' =>
      if (0 <? i) && negb (String.eqb name "") then
        match matched !! i with
        | Some text => collect names' (S i) matched (<[name := text]> params)
        | None => None
        end
      else collect names' (S i) matched params
  end.

(** The loop over the fields.  The structure is written in place: an
    error leaves the fields before it set and the others as they were. *)
Fixpoint bind_fields (params : gmap string string) (fields : list field)
    : list field * option error :=
  match fields with
  | [] => ([], None)
  | f :: rest =>
      match params !! paramName f with
      | None => let '(rest', err) := bind_fields params rest in (f :: rest', err)
      | Some paramValue =>
          if CanSet f then
            match coerce (kind f) paramValue with
            | inl v => let '(rest', err) := bind_fields params rest in
                       (with_value f v :: rest', err)
            | inr e => (f :: rest, Some e)
            end
          else let '(rest', err) := bind_fields params rest in (f :: rest', err)
      end
  end.

(** [c.ParamsParser(v)] for a pointer [v] to a structure with the given
    fields, the registered pattern and the request's URL path. *)
Definition ParamsParser (pattern path : string) (v : list field) : outcome (list field) :=
  match MustCompile (translate pattern) with
  | None => Panicked
  | Some regex =>
      let params :=
        match FindStringSubmatch regex path with
        | Some matched => collect (SubexpNames regex) 0 matched ∅
        | None => Some ∅
        end in
      match params with
      | None => Panicked
      | Some params => let '(v', err) := bind_fields params v in Returned v' err
      end
  end.

(** *** Properties of the binder *)

Lemma bind_fields_empty (v : list field) : bind_fields ∅ v = (v, None).
Proof.
  induction v as [|f v IH]; [reflexivity|].
  simpl. rewrite lookup_empty. now rewrite IH.
Qed.

(** C10: when the translated pattern does not match the request path,
    [ParamsParser] returns a nil error and the structure as it was. *)
Theorem ParamsParser_no_match (pattern path : string) (v : list field) (regex : Regexp) :
  MustCompile (translate pattern) = Some regex ->
  FindStringSubmatch regex path = None ->
  ParamsParser pattern path v = Returned v None.
Proof.
  intros Hc Hm. unfold ParamsParser. rewrite Hc, Hm.
  now rewrite bind_fields_empty.
Qed.

(** The loop over the names ends when [match] is long enough. *)
Lemma collect_some (names matched : list string) :
  forall i params,
  i + length names <= length matched ->
  exists params', collect names i matched params = Some params'.
Proof.
  induction names as [|name names IH]; intros i params Hlen; simpl in *.
  - eauto.
  - destruct ((0 <? i) && negb (String.eqb name "")).
    + destruct (lookup_lt_is_Some_2 matched i ltac:(lia)) as [text ->].
      apply IH. lia.
    + apply IH. lia.
Qed.

(** A name the loop does not assign keeps its entry. *)
Lemma collect_keep (names matched : list string) (name : string) :
  forall i params params',
  collect names i matched params = Some params' ->
  (forall k, names !! k = Some name -> i + k = 0 \/ name = "") ->
  params' !! name = params !! name.
Proof.
  induction names as [|n names IH]; intros i params params' Hc Hno; simpl in Hc.
  - now injection Hc as <-.
  - destruct ((0 <? i) && negb (String.eqb n "")) eqn:Hcond.
    + destruct (matched !! i) as [text|]; [|discriminate].
      rewrite (IH _ _ _ Hc).
      * apply lookup_insert_ne. intros ->.
        apply andb_true_iff in Hcond as [Hi Hn]. apply Nat.ltb_lt in Hi.
        destruct (Hno 0 eq_refl) as [? | ->]; [lia|]. discriminate Hn.
      * intros k Hk. destruct (Hno (S k) Hk); [lia | now right].
    + apply (IH _ _ _ Hc). intros k Hk. destruct (Hno (S k) Hk); [lia | now right].
Qed.

(** The last group of a name gives the name its entry. *)
Lemma collect_last (names matched : list string) (name text : string) :
  forall i k params params',
  collect names i matched params = Some params' ->
  names !! k = Some name -> 0 < i + k -> name <> "" ->
  matched !! (i + k) = Some text ->
  (forall k', k < k' -> names !! k' <> Some name) ->
  params' !! name = Some text.
Proof.
  induction names as [|n names IH]; intros i k params params' Hc Hk Hpos Hne Hm Hlast;
    [discriminate|]. simpl in Hc. destruct k as [|k].
  - injection Hk as ->. rewrite Nat.add_0_r in Hm, Hpos.
    apply Nat.ltb_lt in Hpos. rewrite Hpos in Hc.
    apply String.eqb_neq in Hne. rewrite Hne in Hc. simpl in Hc. rewrite Hm in Hc.
    rewrite (collect_keep _ _ name _ _ _ Hc).
    + apply lookup_insert_eq.
    + intros k Hk. exfalso. apply (Hlast (S k)); [lia | exact Hk].
  - simpl in Hk. replace (i + S k) with (S i + k) in Hm by lia.
    assert (Hlast' : forall k', k < k' -> names !! k' <> Some name).
    { intros k' Hlt. apply (Hlast (S k')). lia. }
    destruct ((0 <? i) && negb (String.eqb n "")).
    + destruct (matched !! i); [|discriminate].
      apply (IH _ _ _ _ Hc Hk ltac:(lia) Hne Hm Hlast').
    + apply (IH _ _ _ _ Hc Hk ltac:(lia) Hne Hm Hlast').
Qed.

(** What the loop over the fields does to one field. *)
Definition bound (params : gmap string string) (f f' : field) : Prop :=
  match params !! paramName f with
  | None => f' = f
  | Some text =>
      if CanSet f then coerce (kind f) text = inl (held f') /\ f' = with_value f (held f')
      else f' = f
  end.

Lemma bind_fields_spec (params : gmap string string) (fields : list field) :
  Forall2 (fun f f' =>
             (params !! paramName f = None \/ CanSet f = false -> f' = f) /\
             ((bind_fields params fields).2 = None -> bound params f f'))
          fields (bind_fields params fields).1 /\
  forall e, (bind_fields params fields).2 = Some e ->
    exists f text, In f fields /\ CanSet f = true /\
      params !! paramName f = Some text /\ coerce (kind f) text = inr e.
Proof.
  induction fields as [|f rest [IH1 IH2]]; [split; [constructor | discriminate]|].
  cbn [bind_fields]. unfold bound.
  destruct (params !! paramName f) as [text|] eqn:Hp.
  - destruct (CanSet f) eqn:Hs.
    + destruct (coerce (kind f) text) as [v|e] eqn:Hco.
      * destruct (bind_fields params rest) as [rest' err]. cbn [fst snd] in *. split.
        -- constructor; [|exact IH1]. split; [intros [? | ?]; congruence|].
           intros _. rewrite Hp, Hs, Hco. now split.
        -- intros e He. destruct (IH2 e He) as (f0 & t0 & Hin & ?).
           exists f0, t0. split; [now right | assumption].
      * cbn [fst snd]. split.
        -- constructor.
           ++ split; [intros [? | ?]; congruence | discriminate].
           ++ clear. induction rest; constructor; auto. split; [auto | discriminate].
        -- intros e' [= <-]. exists f, text. repeat split; auto. now left.
    + destruct (bind_fields params rest) as [rest' err]. cbn [fst snd] in *. split.
      * constructor; [|exact IH1]. split; [auto|]. intros _. now rewrite Hp, Hs.
      * intros e He. destruct (IH2 e He) as (f0 & t0 & Hin & ?).
        exists f0, t0. split; [now right | assumption].
  - destruct (bind_fields params rest) as [rest' err]. cbn [fst snd] in *. split.
    + constructor; [|exact IH1]. split; [auto|]. intros _. now rewrite Hp.
    + intros e He. destruct (IH2 e He) as (f0 & t0 & Hin & ?).
      exists f0, t0. split; [now right | assumption].
Qed.

Lemma collect_from_match (names matched : list string) (name text : string) :
  forall i params params',
  collect names i matched params = Some params' ->
  params' !! name = Some text ->
  params !! name = Some text \/ In text matched.
Proof.
  induction names as [|n names IH]; intros i params params' Hc Hl; simpl in Hc.
  - injection Hc as <-. now left.
  - destruct ((0 <? i) && negb (String.eqb n "")).
    + destruct (matched !! i) as [t|] eqn:Hm; [|discriminate].
      destruct (IH _ _ _ Hc Hl) as [H | H]; [|now right].
      destruct (decide (n = name)) as [-> | Hne].
      * rewrite lookup_insert_eq in H. injection H as <-. right.
        apply list_elem_of_In, list_elem_of_lookup. eauto.
      * rewrite lookup_insert_ne in H by exact Hne. now left.
    + apply (IH _ _ _ Hc Hl).
Qed.

(** C8 (amended): in a pattern of well-formed segments every named
    segment, brace style or colon style, is translated to the group of its
    name.  When the translated pattern compiles and matches the request
    path, [ParamsParser] returns, and field by field: a field whose key
    (its [param] tag, or its name without one) names no capture group, or
    that cannot be set, is as it was; when the call returns no error, a
    settable field whose key names a capture group (the last of that name)
    holds the matched text coerced to the field's kind, the text itself
    for a string field; an error returned comes from a failed coercion of
    a matched text for a settable field. *)
Theorem ParamsParser_binds :
  (forall segs,
      Forall (fun seg => well_formed seg = true) segs ->
      translate (pattern_of segs) = expression_of segs) /\
  (forall (pattern path : string) (v : list field) (regex : Regexp) (matched : list string),
      MustCompile (translate pattern) = Some regex ->
      FindStringSubmatch regex path = Some matched ->
      length (SubexpNames regex) <= length matched ->
      exists v' err,
        ParamsParser pattern path v = Returned v' err /\
        Forall2 (fun f f' =>
            ((forall i, 0 < i -> SubexpNames regex !! i = Some (paramName f) ->
                        paramName f = "") \/ CanSet f = false -> f' = f) /\
            (forall i text,
                err = None -> CanSet f = true ->
                0 < i -> SubexpNames regex !! i = Some (paramName f) ->
                paramName f <> "" -> matched !! i = Some text ->
                (forall j, i < j -> SubexpNames regex !! j <> Some (paramName f)) ->
                coerce (kind f) text = inl (held f') /\
                f' = with_value f (held f') /\
                (kind f = KString -> held f' = StringVal text)))
          v v' /\
        (forall e, err = Some e ->
           exists f text, In f v /\ CanSet f = true /\ In text matched /\
                          coerce (kind f) text = inr e)).
Proof.
  split; [exact translate_segments|].
  intros pattern path v regex matched Hc Hm Hlen. unfold ParamsParser. rewrite Hc, Hm.
  destruct (collect_some (SubexpNames regex) matched 0 ∅ Hlen) as [params Hp].
  rewrite Hp. destruct (bind_fields_spec params v) as [HF HE].
  destruct (bind_fields params v) as [v' err]. cbn [fst snd] in *.
  exists v', err. split; [reflexivity|]. split.
  - eapply Forall2_impl; [exact HF|]. intros f f' [Hsame Hbound]. split.
    + intros [Hno | Hns]; [|auto]. apply Hsame. left.
      rewrite (collect_keep _ _ (paramName f) _ _ _ Hp); [apply lookup_empty|].
      intros k Hk. destruct k as [|k]; [now left | right].
      apply (Hno (S k)); [lia | exact Hk].
    + intros i text -> Hs Hi Hn Hne Ht Hlast.
      specialize (Hbound eq_refl). unfold bound in Hbound.
      rewrite (collect_last _ _ (paramName f) text 0 i _ _ Hp Hn Hi Hne Ht Hlast) in Hbound.
      rewrite Hs in Hbound. destruct Hbound as [Hco Hf']. repeat split; auto.
      intros Hk. rewrite Hk in Hco. simpl in Hco. now injection Hco as <-.
  - intros e He. destruct (HE e He) as (f & text & Hin & Hs & Hl & Hco).
    exists f, text. repeat split; auto.
    destruct (collect_from_match _ _ _ _ _ _ _ Hp Hl) as [H | H]; [|exact H].
    now rewrite lookup_empty in H.
Qed.

(** *** What an error leaves behind, and what a field can come to hold *)

(** The loop over the fields stops at the first field whose text does not
    coerce: the fields before it are bound, that field and the ones after
    it are as they were. *)
Lemma bind_fields_error (params : gmap string string) (fields : list field) :
  forall fields' e,
  bind_fields params fields = (fields', Some e) ->
  exists pre pre' f post text,
    fields = pre ++ f :: post /\ fields' = pre' ++ f :: post /\
    Forall2 (bound params) pre pre' /\
    CanSet f = true /\ params !! paramName f = Some text /\
    coerce (kind f) text = inr e.
Proof.
  induction fields as [|f rest IH]; intros fields' e H; [discriminate|].
  cbn [bind_fields] in H.
  assert (Step : forall f0 rest',
             bound params f f0 ->
             bind_fields params rest = (rest', Some e) -> fields' = f0 :: rest' ->
             exists pre pre' f1 post text,
               f :: rest = pre ++ f1 :: post /\ fields' = pre' ++ f1 :: post /\
               Forall2 (bound params) pre pre' /\
               CanSet f1 = true /\ params !! paramName f1 = Some text /\
               coerce (kind f1) text = inr e).
  { intros f0 rest' Hb Hr ->.
    destruct (IH _ _ Hr) as (pre & pre' & f1 & post & text & -> & -> & HF & Hrest).
    exists (f :: pre), (f0 :: pre'), f1, post, text.
    split; [reflexivity|]. split; [reflexivity|]. split; [now constructor | exact Hrest]. }
  unfold bound in Step.
  destruct (params !! paramName f) as [text|] eqn:Hp.
  - destruct (CanSet f) eqn:Hs.
    + destruct (coerce (kind f) text) as [v|e'] eqn:Hco.
      * destruct (bind_fields params rest) as [rest' err] eqn:Hr.
        injection H as <- ->. apply (Step (with_value f v) rest'); auto.
      * injection H as <- <-. exists [], [], f, rest, text. repeat split; auto.
    + destruct (bind_fields params rest) as [rest' err] eqn:Hr.
      injection H as <- ->. apply (Step f rest'); auto.
  - destruct (bind_fields params rest) as [rest' err] eqn:Hr.
    injection H as <- ->. apply (Step f rest'); auto.
Qed.

(** X9: [ParamsParser] writes the structure in place and stops at the
    first failure.  When it returns an error, the path matched and the
    fields split at the failing one: the fields before it are bound (set
    from their capture groups, or as they were), the failing field, which
    can be set and whose captured text does not coerce to its kind, and
    all the fields after it are as they were. *)
Theorem ParamsParser_error_is_partial (pattern path : string) (v v' : list field) (e : error) :
  ParamsParser pattern path v = Returned v' (Some e) ->
  exists regex matched params pre pre' f post text,
    MustCompile (translate pattern) = Some regex /\
    FindStringSubmatch regex path = Some matched /\
    collect (SubexpNames regex) 0 matched ∅ = Some params /\
    v = pre ++ f :: post /\ v' = pre' ++ f :: post /\
    Forall2 (bound params) pre pre' /\
    CanSet f = true /\ params !! paramName f = Some text /\ In text matched /\
    coerce (kind f) text = inr e.
Proof.
  unfold ParamsParser. intros H.
  destruct (MustCompile (translate pattern)) as [regex|] eqn:Hm; [|discriminate].
  destruct (FindStringSubmatch regex path) as [matched|] eqn:Hf.
  - destruct (collect (SubexpNames regex) 0 matched ∅) as [params|] eqn:Hc; [|discriminate].
    destruct (bind_fields params v) as [v1 err] eqn:Hb. injection H as -> ->.
    destruct (bind_fields_error params v _ _ Hb)
      as (pre & pre' & f & post & text & Hv & Hv' & HF & Hs & Hl & Hco).
    exists regex, matched, params, pre, pre', f, post, text.
    do 8 (split; [first [reflexivity | assumption]|]).
    split; [|exact Hco].
    destruct (collect_from_match _ _ _ _ _ _ _ Hc Hl) as [Hl' | Hin]; [|exact Hin].
    now rewrite lookup_empty in Hl'.
  - rewrite bind_fields_empty in H. discriminate.
Qed.

(** The width of the integer kinds. *)
Definition int_bits (k : Kind) : option Z :=
  match k with
  | KInt | KInt64 => Some 64%Z
  | KInt8 => Some 8%Z
  | KInt16 => Some 16%Z
  | KInt32 => Some 32%Z
  | _ => None
  end.

Definition uint_bits (k : Kind) : option Z :=
  match k with
  | KUint | KUint64 => Some 64%Z
  | KUint8 => Some 8%Z
  | KUint16 => Some 16%Z
  | KUint32 => Some 32%Z
  | _ => None
  end.

(** A value a field of kind [k] can hold: of the kind's own type and, for
    an integer, within its width. *)
Definition fits (k : Kind) (v : value) : Prop :=
  match v with
  | StringVal _ => k = KString
  | IntVal n => exists w, int_bits k = Some w /\ (- 2 ^ (w - 1) <= n < 2 ^ (w - 1))%Z
  | UintVal n => exists w, uint_bits k = Some w /\ (0 <= n < 2 ^ w)%Z
  | FloatVal _ => k = KFloat32 \/ k = KFloat64
  | BoolVal _ => k = KBool
  | OtherVal => False
  end.

Lemma digit_range (c : ascii) (d : Z) : digit c = Some d -> (0 <= d <= 9)%Z.
Proof.
  unfold digit. destruct (Nat.leb_spec 48 (nat_of_ascii c)); [|discriminate].
  destruct (Nat.leb_spec (nat_of_ascii c) 57); [|discriminate].
  cbn [andb]. intros [= <-]. lia.
Qed.

Lemma digits_nonneg (s : string) :
  forall acc n, (0 <= acc)%Z -> digits acc s = Some n -> (0 <= n)%Z.
Proof.
  induction s as [|c s IH]; intros acc n Hacc H; cbn [digits] in H.
  - injection H as <-. exact Hacc.
  - destruct (digit c) as [d|] eqn:Hd; [|discriminate].
    apply digit_range in Hd. eapply IH; [|exact H]. lia.
Qed.

Lemma ParseUint_range (s : string) (bitSize n : Z) :
  ParseUint s bitSize = Some n -> (0 <= n < 2 ^ bits_of bitSize)%Z.
Proof.
  unfold ParseUint. destruct s as [|c s]; [discriminate|].
  destruct (digits 0 (String c s)) as [m|] eqn:Hd; [|discriminate].
  destruct (Z.ltb_spec m (2 ^ bits_of bitSize)); [|discriminate].
  intros [= <-]. split; [|assumption]. eapply digits_nonneg; [|exact Hd]. lia.
Qed.

Lemma ParseInt_range (s : string) (bitSize n : Z) :
  (0 < bits_of bitSize)%Z ->
  ParseInt s bitSize = Some n ->
  (- 2 ^ (bits_of bitSize - 1) <= n < 2 ^ (bits_of bitSize - 1))%Z.
Proof.
  intros Hbits. unfold ParseInt. destruct s as [|c s]; [discriminate|].
  set (body := if Ascii.eqb c "+"%char || Ascii.eqb c "-"%char then s else String c s).
  destruct body as [|b body'] eqn:Hbody; [discriminate|].
  destruct (digits 0 (String b body')) as [un|] eqn:Hd; [|discriminate].
  assert (Hun : (0 <= un)%Z) by (eapply digits_nonneg; [|exact Hd]; lia).
  assert (Hpow : (0 < 2 ^ (bits_of bitSize - 1))%Z) by (apply Z.pow_pos_nonneg; lia).
  destruct (Ascii.eqb c "-"%char).
  - destruct (Z.leb_spec un (2 ^ (bits_of bitSize - 1))); [|discriminate].
    intros [= <-]. lia.
  - destruct (Z.ltb_spec un (2 ^ (bits_of bitSize - 1))); [|discriminate].
    intros [= <-]. lia.
Qed.

Lemma coerce_fits (k : Kind) (text : string) (x : value) :
  coerce k text = inl x -> fits k x.
Proof.
  assert (I : forall bitSize target,
             parsed (ParseInt text bitSize) IntVal text target = inl x ->
             forall w, bits_of bitSize = w -> (0 < w)%Z ->
             exists n, x = IntVal n /\ (- 2 ^ (w - 1) <= n < 2 ^ (w - 1))%Z).
  { intros bitSize target H w <- Hw. revert H. unfold parsed.
    destruct (ParseInt text bitSize) as [n|] eqn:E; [|discriminate].
    intros [= <-]. exists n. split; [reflexivity | now apply (ParseInt_range text)]. }
  assert (U : forall bitSize w target,
             bits_of bitSize = w ->
             parsed (ParseUint text bitSize) UintVal text target = inl x ->
             exists n, x = UintVal n /\ (0 <= n < 2 ^ w)%Z).
  { intros bitSize w target <-. unfold parsed.
    destruct (ParseUint text bitSize) as [n|] eqn:E; [|discriminate].
    intros [= <-]. exists n. split; [reflexivity | now apply (ParseUint_range text)]. }
  destruct k; cbn [coerce]; intros H;
    try (destruct (I _ _ H _ eq_refl eq_refl) as (n & -> & Hn);
         eexists; split; [reflexivity | exact Hn]);
    try (destruct (U _ _ _ eq_refl H) as (n & -> & Hn); eexists; split; [reflexivity | exact Hn]).
  - injection H as <-. reflexivity.
  - unfold parsed in H. destruct (ParseFloat text 32); [|discriminate].
    injection H as <-. now left.
  - unfold parsed in H. destruct (ParseFloat text 64); [|discriminate].
    injection H as <-. now right.
  - unfold parsed in H. destruct (ParseBool text); [|discriminate].
    injection H as <-. reflexivity.
  - discriminate.
Qed.

(** X10: whatever [ParamsParser] returns, error or not, a field of the
    structure is either as it was or differs only in what it holds, and
    then holds a value of its own kind: a string for a string field, a
    boolean for a boolean field, a float for a float field, and for an
    integer field of [w] bits (64 for [int] and [uint]) an integer within
    the range of that width, signed or unsigned as the field is. *)
Theorem ParamsParser_values_fit (pattern path : string) (v v' : list field)
    (err : option error) :
  ParamsParser pattern path v = Returned v' err ->
  Forall2 (fun f f' =>
             f' = f \/
             (CanSet f = true /\ f' = with_value f (held f') /\ fits (kind f) (held f')))
          v v'.
Proof.
  unfold ParamsParser. intros H.
  destruct (MustCompile (translate pattern)) as [regex|]; [|discriminate].
  assert (B : forall params, bind_fields params v = (v', err) ->
              Forall2 (fun f f' =>
                         f' = f \/
                         (CanSet f = true /\ f' = with_value f (held f') /\
                          fits (kind f) (held f'))) v v').
  { clear H. intros params. revert v' err.
    induction v as [|f rest IH]; intros v' err H; cbn [bind_fields] in H.
    - injection H as <- <-. constructor.
    - destruct (params !! paramName f) as [text|].
      + destruct (CanSet f) eqn:Hs.
        * destruct (coerce (kind f) text) as [x|e] eqn:Hco.
          -- destruct (bind_fields params rest) as [rest' err'] eqn:Hr.
             injection H as <- <-. constructor; [|apply (IH rest' err' eq_refl)].
             right. split; [exact Hs|]. split; [reflexivity|].
             now apply (coerce_fits _ text).
          -- injection H as <- <-. constructor; [now left|].
             clear. induction rest; constructor; auto.
        * destruct (bind_fields params rest) as [rest' err'] eqn:Hr.
          injection H as <- <-. constructor; [now left | apply (IH rest' err' eq_refl)].
      + destruct (bind_fields params rest) as [rest' err'] eqn:Hr.
        injection H as <- <-. constructor; [now left | apply (IH rest' err' eq_refl)]. }
  destruct (FindStringSubmatch regex path) as [matched|].
  - destruct (collect (SubexpNames regex) 0 matched ∅) as [params|]; [|discriminate].
    destruct (bind_fields params v) as [v1 err1] eqn:Hb. injection H as <- <-.
    now apply (B params).
  - destruct (bind_fields ∅ v) as [v1 err1] eqn:Hb. injection H as <- <-.
    now apply (B ∅).
Qed.

(** X11: a registered pattern with no colon and no opening brace is handed
    to the expression compiler as it is written. *)
Theorem translate_static (pattern : string) :
  lacks ":" pattern = true -> lacks "{" pattern = true -> translate pattern = pattern.
Proof.
  intros Hc Hb. unfold translate.
  pose proof (replace_braces_lacks pattern "" Hb) as E1.
  pose proof (replace_colons_lacks pattern "" Hc) as E2.
  rewrite str_app_nil_r in E1, E2. cbn [replace_braces replace_colons] in E1, E2.
  rewrite str_app_nil_r in E1, E2. now rewrite E1, E2.
Qed.

(** *** Decimal text *)

Lemma digits_string_of_uint (d : Decimal.uint) :
  forall acc : nat,
  digits (Z.of_nat acc) (NilEmpty.string_of_uint d) = Some (Z.of_nat (Nat.of_uint_acc d acc)).
Proof.
  induction d; intros acc; cbn [NilEmpty.string_of_uint digits Nat.of_uint_acc];
    [reflexivity | ..];
    match goal with
    | |- context [digit ?c] =>
        let v := eval vm_compute in (digit c) in change (digit c) with v
    end;
    rewrite <- IHd; f_equal; rewrite Nat.tail_mul_spec; lia.
Qed.

Lemma digits_itoa (n : nat) : digits 0 (itoa n) = Some (Z.of_nat n).
Proof.
  unfold itoa. change 0%Z with (Z.of_nat 0).
  rewrite (digits_string_of_uint (Nat.to_uint n) 0).
  change (Nat.of_uint_acc (Nat.to_uint n) 0) with (Nat.of_uint (Nat.to_uint n)).
  now rewrite DecimalNat.Unsigned.of_to.
Qed.

Lemma to_uint_nonnil (n : nat) : Nat.to_uint n <> Decimal.Nil.
Proof.
  rewrite <- (DecimalNat.Unsigned.of_to n) at 1. rewrite DecimalNat.Unsigned.to_of.
  apply unorm_nonnil.
Qed.

Lemma itoa_head (n : nat) :
  exists c rest,
    itoa n = String c rest /\ Ascii.eqb c "+"%char = false /\ Ascii.eqb c "-"%char = false.
Proof.
  unfold itoa. pose proof (to_uint_nonnil n) as H.
  destruct (Nat.to_uint n); [congruence | ..]; cbn [NilEmpty.string_of_uint];
    eexists _, _; (split; [reflexivity|]); split; reflexivity.
Qed.

Lemma ParseUint_itoa (n : nat) (bitSize : Z) :
  ParseUint (itoa n) bitSize =
    (if (Z.of_nat n <? 2 ^ bits_of bitSize)%Z then Some (Z.of_nat n) else None) /\
  ParseUint ("-" +:+ itoa n) bitSize = None.
Proof.
  destruct (itoa_head n) as (c & rest & E & _). split; [|reflexivity].
  unfold ParseUint. rewrite digits_itoa. now rewrite E.
Qed.

Lemma ParseInt_itoa (n : nat) (bitSize : Z) :
  ParseInt (itoa n) bitSize =
    (if (Z.of_nat n <? 2 ^ (bits_of bitSize - 1))%Z then Some (Z.of_nat n) else None) /\
  ParseInt ("-" +:+ itoa n) bitSize =
    (if (Z.of_nat n <=? 2 ^ (bits_of bitSize - 1))%Z then Some (- Z.of_nat n)%Z else None).
Proof.
  destruct (itoa_head n) as (c & rest & E & Hp & Hm).
  pose proof (digits_itoa n) as D. rewrite E in D. split.
  - unfold ParseInt. rewrite E. rewrite Hp, Hm. cbn [orb]. now rewrite D.
  - unfold ParseInt. rewrite str_app_cons, str_app_nil_l.
    change (Ascii.eqb "-" "-") with true. rewrite orb_true_r.
    rewrite E. now rewrite D.
Qed.

(** X13: the text of a number binds to that number.  For a field of a
    signed integer kind of [w] bits the decimal text of [n] coerces to [n]
    when [n] is below [2^(w-1)] and fails to convert from there on, and
    the text with a minus sign in front coerces to [-n] up to [2^(w-1)];
    for a field of an unsigned kind of [w] bits the text coerces to [n]
    below [2^w], fails from there on, and never converts with a minus
    sign. *)
Theorem coerce_decimal (k : Kind) (n : nat) :
  (forall w, int_bits k = Some w ->
     ((Z.of_nat n < 2 ^ (w - 1))%Z -> coerce k (itoa n) = inl (IntVal (Z.of_nat n))) /\
     ((2 ^ (w - 1) <= Z.of_nat n)%Z ->
        exists target, coerce k (itoa n) = inr (convert_error (itoa n) target)) /\
     ((Z.of_nat n <= 2 ^ (w - 1))%Z ->
        coerce k ("-" +:+ itoa n) = inl (IntVal (- Z.of_nat n)%Z))) /\
  (forall w, uint_bits k = Some w ->
     ((Z.of_nat n < 2 ^ w)%Z -> coerce k (itoa n) = inl (UintVal (Z.of_nat n))) /\
     ((2 ^ w <= Z.of_nat n)%Z ->
        exists target, coerce k (itoa n) = inr (convert_error (itoa n) target)) /\
     exists target,
       coerce k ("-" +:+ itoa n) = inr (convert_error ("-" +:+ itoa n) target)).
Proof.
  assert (I : forall bitSize target w,
             bits_of bitSize = w ->
             ((Z.of_nat n < 2 ^ (w - 1))%Z ->
                parsed (ParseInt (itoa n) bitSize) IntVal (itoa n) target
                  = inl (IntVal (Z.of_nat n))) /\
             ((2 ^ (w - 1) <= Z.of_nat n)%Z ->
                exists target',
                  parsed (ParseInt (itoa n) bitSize) IntVal (itoa n) target
                    = inr (convert_error (itoa n) target')) /\
             ((Z.of_nat n <= 2 ^ (w - 1))%Z ->
                parsed (ParseInt ("-" +:+ itoa n) bitSize) IntVal ("-" +:+ itoa n) target
                  = inl (IntVal (- Z.of_nat n)%Z))).
  { intros bitSize target w <-. destruct (ParseInt_itoa n bitSize) as [-> ->].
    split; [|split]; intros H.
    - destruct (Z.ltb_spec (Z.of_nat n) (2 ^ (bits_of bitSize - 1))); [reflexivity | lia].
    - destruct (Z.ltb_spec (Z.of_nat n) (2 ^ (bits_of bitSize - 1))); [lia|].
      now exists target.
    - destruct (Z.leb_spec (Z.of_nat n) (2 ^ (bits_of bitSize - 1))); [reflexivity | lia]. }
  assert (U : forall bitSize target w,
             bits_of bitSize = w ->
             ((Z.of_nat n < 2 ^ w)%Z ->
                parsed (ParseUint (itoa n) bitSize) UintVal (itoa n) target
                  = inl (UintVal (Z.of_nat n))) /\
             ((2 ^ w <= Z.of_nat n)%Z ->
                exists target',
                  parsed (ParseUint (itoa n) bitSize) UintVal (itoa n) target
                    = inr (convert_error (itoa n) target')) /\
             exists target',
               parsed (ParseUint ("-" +:+ itoa n) bitSize) UintVal ("-" +:+ itoa n) target
                 = inr (convert_error ("-" +:+ itoa n) target')).
  { intros bitSize target w <-. destruct (ParseUint_itoa n bitSize) as [-> ->].
    split; [|split].
    - intros H. destruct (Z.ltb_spec (Z.of_nat n) (2 ^ bits_of bitSize)); [reflexivity | lia].
    - intros H. destruct (Z.ltb_spec (Z.of_nat n) (2 ^ bits_of bitSize)); [lia|].
      now exists target.
    - now exists target. }
  split; intros w Hw; destruct k; try discriminate Hw; injection Hw as <-; cbn [coerce];
    first [ now apply I | now apply U ].
Qed.

End Binder.

End Params.

(** ** Path parameters at work *)
Module ParamScenarios.
Import GoStrings GoErrors Params.

(** A small engine for the expressions that [translate] makes of plain
    text with named segments: literal characters and named groups over
    [[^/]+], matched leftmost first, the groups greedy.  It stands for
    Go's [regexp] on such patterns and declines every other. *)
Inductive token : Type :=
| Lit (c : ascii)
| Group (name : string).

Definition is_meta (c : ascii) : bool :=
  existsb (Ascii.eqb c)
    ["\"; "."; "+"; "*"; "?"; "("; ")"; "|"; "["; "]"; "{"; "}"; "^"; "$"]%char.

Fixpoint until_gt (s : string) : option (string * string) :=
  match s with
  | "" => None
  | String c rest =>
      if Ascii.eqb c ">"%char then Some ("", rest)
      else match until_gt rest with
           | Some (name, after) => Some (String c name, after)
           | None => None
           end
  end.

Fixpoint compile_from (skipn : nat) (s : string) : option (list token) :=
  match s with
  | "" => Some []
  | String c rest =>
      match skipn with
      | S n => compile_from n rest
      | 0 =>
          if HasPrefix s "(?P<" then
            match until_gt (skip 4 s) with
            | Some (name, after) =>
                if valid_name name && HasPrefix after "[^/]+)" then
                  cons (Group name) <$> compile_from (String.length name + 10) rest
                else None
            | None => None
            end
          else if is_meta c then None
          else cons (Lit c) <$> compile_from 0 rest
      end
  end.

Definition compile (expr : string) : option (list token) := compile_from 0 expr.

Definition names (re : list token) : list string :=
  "" :: omap (fun t => match t with Group name => Some name | Lit _ => None end) re.

(** One or more characters other than ['/'], as many as the rest of the
    expression [k] allows, the longest first. *)
Fixpoint greedy (k : string -> option (list string * string)) (s : string)
    : option (string * (list string * string)) :=
  match s with
  | "" => None
  | String c rest =>
      if Ascii.eqb c "/"%char then None
      else match greedy k rest with
           | Some (text, r) => Some (String c text, r)
           | None =>
               match k rest with
               | Some r => Some (String c "", r)
               | None => None
               end
           end
  end.

(** The captures of a match at the head of [s], and what follows it. *)
Fixpoint match_tokens (re : list token) (s : string) : option (list string * string) :=
  match re with
  | [] => Some ([], s)
  | Lit c :: re' =>
      match s with
      | String d rest => if Ascii.eqb c d then match_tokens re' rest else None
      | "" => None
      end
  | Group _ :: re' =>
      match greedy (match_tokens re') s with
      | Some (text, (caps, rest)) => Some (text :: caps, rest)
      | None => None
      end
  end.

Fixpoint find (re : list token) (s : string) : option (list string) :=
  match match_tokens re s with
  | Some (caps, rest) =>
      Some (String.substring 0 (String.length s - String.length rest) s :: caps)
  | None =>
      match s with
      | "" => None
      | String _ rest => find re rest
      end
  end.

(** No floating-point field in the examples. *)
Definition no_float (s : string) (bitSize : Z) : option unit := None.

Definition ParamsParser' :=
  ParamsParser unit no_float (list token) compile find names.

Definition Field := field unit.

(** [Name string `param:"name"`] and [Age int]. *)
Definition account : list Field :=
  [ {| Name := "Name"; Tag := Some "name"; kind := KString; CanSet := true;
       held := StringVal unit "" |};
    {| Name := "Age"; Tag := None; kind := KInt; CanSet := true;
       held := IntVal unit 0 |} ].

(** [name string `param:"name"`], unexported. *)
Definition hidden : list Field :=
  [ {| Name := "name"; Tag := Some "name"; kind := KString; CanSet := false;
       held := StringVal unit "" |} ].

(** [Name int `param:"name"`]. *)
Definition numbered : list Field :=
  [ {| Name := "Name"; Tag := Some "name"; kind := KInt; CanSet := true;
       held := IntVal unit 0 |} ].

(** The expression [translate] makes of ["/account/:name"], compiled. *)
Definition account_regex : list token :=
  [Lit "/"; Lit "a"; Lit "c"; Lit "c"; Lit "o"; Lit "u"; Lit "n"; Lit "t"; Lit "/";
   Group "name"]%char.

(** The claim C8 as it is worded fails on these inputs: the pattern
    matches and captures [name], yet a field tagged [name] that cannot be
    set keeps its value, and one of kind [int] fails the call. *)
Lemma ParamsParser_leaves_tagged_field :
  translate "/account/:name" = "/account/(?P<name>[^/]+)" /\
  compile (translate "/account/:name") = Some account_regex /\
  find account_regex "/account/Ann Lee" = Some ["/account/Ann Lee"; "Ann Lee"] /\
  ParamsParser' "/account/:name" "/account/Ann Lee" hidden = Returned hidden None /\
  ParamsParser' "/account/:name" "/account/Ann Lee" numbered =
    Returned numbered (Some (errorString "erro ao converter 'Ann Lee' para int")).
Proof. repeat split; reflexivity. Qed.

(** The binding of the design document's scenario, brace style included. *)
Example ParamsParser_Ann_Lee :
  ParamsParser' "/account/:name" "/account/Ann Lee" account =
    Returned
      [ {| Name := "Name"; Tag := Some "name"; kind := KString; CanSet := true;
           held := StringVal unit "Ann Lee" |};
        {| Name := "Age"; Tag := None; kind := KInt; CanSet := true;
           held := IntVal unit 0 |} ] None /\
  ParamsParser' "/account/{name}" "/account/Ann Lee" account =
    ParamsParser' "/account/:name" "/account/Ann Lee" account.
Proof. split; reflexivity. Qed.

Lemma ParamsParser_binds_witness :
  compile (translate "/account/:name") = Some account_regex /\
  find account_regex "/account/Ann Lee" = Some ["/account/Ann Lee"; "Ann Lee"] /\
  length (names account_regex) <= length ["/account/Ann Lee"; "Ann Lee"] /\
  exists v',
    ParamsParser' "/account/:name" "/account/Ann Lee" account = Returned v' None /\
    held unit <$> v' !! 0 = Some (StringVal unit "Ann Lee") /\
    v' !! 1 = account !! 1.
Proof.
  split; [reflexivity|]. split; [reflexivity|]. split; [simpl; lia|].
  destruct (ParamsParser_binds unit no_float (list token) compile find names) as [_ Hbind].
  destruct (Hbind "/account/:name" "/account/Ann Lee" account account_regex
              ["/account/Ann Lee"; "Ann Lee"] eq_refl eq_refl ltac:(simpl; lia))
    as (v' & err & E & F & _).
  assert (Herr : err = None).
  { change (ParamsParser unit no_float (list token) compile find names
              "/account/:name" "/account/Ann Lee" account)
      with (ParamsParser' "/account/:name" "/account/Ann Lee" account) in E.
    destruct ParamsParser_Ann_Lee as [E' _]. rewrite E' in E. now injection E as _ <-. }
  subst err. exists v'. split; [exact E|].
  inversion F as [|f1 f1' r1 r1' [_ H1] F1]; subst.
  inversion F1 as [|f2 f2' r2 r2' [H2 _] F2]; subst.
  split.
  - destruct (H1 1 "Ann Lee" eq_refl eq_refl ltac:(lia) eq_refl ltac:(discriminate) eq_refl)
      as (_ & _ & Hs).
    + intros [|[|j]] Hj; simpl; try lia; discriminate.
    + simpl. now rewrite (Hs eq_refl).
  - simpl. f_equal. apply H2. left. intros [|[|[|i]]] Hi Hn; try lia; discriminate Hn.
Defined.

Lemma ParamsParser_no_match_witness :
  compile (translate "/account/:name") = Some account_regex /\
  find account_regex "/profile" = None /\
  ParamsParser' "/account/:name" "/profile" account = Returned account None.
Proof.
  split; [reflexivity|]. split; [reflexivity|].
  apply (ParamsParser_no_match unit no_float (list token) compile find names
           "/account/:name" "/profile" account account_regex); reflexivity.
Defined.

(** [Name string `param:"name"`], [Age int `param:"age"`] and
    [Alias string `param:"name"`]. *)
Definition profile : list Field :=
  [ {| Name := "Name"; Tag := Some "name"; kind := KString; CanSet := true;
       held := StringVal unit "" |};
    {| Name := "Age"; Tag := Some "age"; kind := KInt; CanSet := true;
       held := IntVal unit 0 |};
    {| Name := "Alias"; Tag := Some "name"; kind := KString; CanSet := true;
       held := StringVal unit "" |} ].

(** A failure at the second field: the first is set, the third is not,
    though its group matched. *)
Lemma ParamsParser_error_is_partial_witness :
  ParamsParser' "/u/:name/:age" "/u/Ann/old" profile =
    Returned
      [ {| Name := "Name"; Tag := Some "name"; kind := KString; CanSet := true;
           held := StringVal unit "Ann" |};
        {| Name := "Age"; Tag := Some "age"; kind := KInt; CanSet := true;
           held := IntVal unit 0 |};
        {| Name := "Alias"; Tag := Some "name"; kind := KString; CanSet := true;
           held := StringVal unit "" |} ]
      (Some (errorString "erro ao converter 'old' para int")) /\
  exists (pre pre' : list Field) (f : Field) (post : list Field),
    profile = pre ++ f :: post /\ length pre = 1 /\ length pre' = 1 /\
    kind unit f = KInt /\ length post = 1.
Proof.
  split; [reflexivity|].
  destruct (ParamsParser_error_is_partial unit no_float (list token) compile find names
              "/u/:name/:age" "/u/Ann/old" profile _ _ eq_refl)
    as (regex & matched & params & pre & pre' & f & post & text
        & Hm & Hf & Hc & Hv & Hv' & HF & Hs & Hl & Hin & Hco).
  exists pre, pre', f, post.
  injection Hm as <-. injection Hf as <-. injection Hc as <-.
  destruct pre as [|f1 [|f2 pre]].
  - injection Hv as <- <-. discriminate Hco.
  - injection Hv as <- <- <-. apply Forall2_length in HF. now repeat split.
  - exfalso. injection Hv as <- <- Hv. destruct pre as [|f3 [|f4 pre]].
    + injection Hv as <- <-. discriminate Hco.
    + now injection Hv.
    + now injection Hv.
Defined.

(** The same call: each field is as it was or holds a value of its kind. *)
Lemma ParamsParser_values_fit_witness :
  ParamsParser' "/u/:name/:age" "/u/Ann/7" profile =
    Returned
      [ {| Name := "Name"; Tag := Some "name"; kind := KString; CanSet := true;
           held := StringVal unit "Ann" |};
        {| Name := "Age"; Tag := Some "age"; kind := KInt; CanSet := true;
           held := IntVal unit 7 |};
        {| Name := "Alias"; Tag := Some "name"; kind := KString; CanSet := true;
           held := StringVal unit "Ann" |} ] None /\
  fits unit KInt (IntVal unit 7).
Proof.
  split; [reflexivity|].
  pose proof (ParamsParser_values_fit unit no_float (list token) compile find names
                "/u/:name/:age" "/u/Ann/7" profile _ _ eq_refl) as F.
  inversion F as [|f1 f1' r1 r1' _ F1]; subst.
  inversion F1 as [|f2 f2' r2 r2' H2 _]; subst.
  destruct H2 as [H2 | (_ & _ & H2)]; [discriminate H2 | exact H2].
Defined.

Lemma translate_static_witness :
  lacks ":" "/users/all" = true /\ lacks "{" "/users/all" = true /\
  translate "/users/all" = "/users/all".
Proof.
  split; [reflexivity|]. split; [reflexivity|].
  apply (translate_static "/users/all"); reflexivity.
Defined.

End ParamScenarios.

(** ** The error envelope (the root package's server) *)
Module ErrorEnvelope.
Import GoStrings GoErrors.

(** An [http.ResponseWriter] as [httptest.ResponseRecorder] keeps it: the
    header map, the status once the header is written together with the
    headers as they stood then, and the body written so far. *)
Record ResponseWriter : Type := {
  HeaderMap : gmap string string;
  Code : option Z;
  snapHeader : gmap string string;
  Body : string
}.

Definition NewRecorder : ResponseWriter :=
  {| HeaderMap := ∅; Code := None; snapHeader := ∅; Body := "" |}.

(** [w.Header().Set(key, value)]. *)
Definition Header_Set (key value : string) (w : ResponseWriter) : ResponseWriter :=
  {| HeaderMap := <[key := value]> (HeaderMap w); Code := Code w;
     snapHeader := snapHeader w; Body := Body w |}.

(** [w.WriteHeader(code)]: ignored once the header is written; a code
    outside 100..999 panics ([None]). *)
Definition WriteHeader (code : Z) (w : ResponseWriter) : option ResponseWriter :=
  match Code w with
  | Some _ => Some w
  | None =>
      if (code <? 100)%Z || (999 <? code)%Z then None
      else Some {| HeaderMap := HeaderMap w; Code := Some code;
                   snapHeader := HeaderMap w; Body := Body w |}
  end.

(** [w.Write(b)]: writes the header with status 200 if none was written. *)
Definition Write (b : string) (w : ResponseWriter) : option ResponseWriter :=
  match WriteHeader 200 w with
  | Some w' => Some {| HeaderMap := HeaderMap w'; Code := Code w';
                       snapHeader := snapHeader w'; Body := Body w' +:+ b |}
  | None => None
  end.

Definition newline : string := String (ascii_of_nat 10) "".

(** [http.Error(w, error, code)]. *)
Definition http_Error (msg : string) (code : Z) (w : ResponseWriter) : option ResponseWriter :=
  let w := Header_Set "Content-Type" "text/plain; charset=utf-8" w in
  let w := Header_Set "X-Content-Type-Options" "nosniff" w in
  match WriteHeader code w with
  | Some w => Write (msg +:+ newline) w
  | None => None
  end.

(** [StatusInternalServerError]. *)
Definition StatusInternalServerError : Z := 500.

(** [type ServerError struct]; [Err] may be nil. *)
Record ServerError : Type := {
  StatusCode : Z;
  ContentType : string;
  Err : option error
}.

(** A non-nil [error] a handler returns, by dynamic type: a pointer to a
    [ServerError] (which may be a nil pointer), or anything else. *)
Inductive handler_error : Type :=
| tagged (srvErr : option ServerError)
| untagged (err : error).

Section Envelope.

(** [JSON{...}.Bytes()] of the root package, declared in another file of
    it: the encoding of a payload of string values, or an error. *)
Variable JSON_Bytes : gmap string string -> string + error.

Variable Request : Type.

(** A handler, seen from the connection: what it leaves of the writer and
    the error it returns. *)
Definition Handler : Type := Request -> ResponseWriter -> ResponseWriter * option handler_error.

(** [(e *ServerError) ServeHTTP(w, r)]. *)
Definition ServeHTTP (e : ServerError) (w : ResponseWriter) : option ResponseWriter :=
  match Err e with
  | Some err =>
      let w := Header_Set "Content-Type" (ContentType e) w in
      if String.eqb (ContentType e) "application/json" then
        match (if (100 <=? StatusCode e)%Z then WriteHeader (StatusCode e) w else Some w) with
        | None => None
        | Some w =>
            match JSON_Bytes {[ "err" := Error err ]} with
            | inr err' => http_Error (Error err') StatusInternalServerError w
            | inl b => Write b w
            end
        end
      else http_Error (Error err) (StatusCode e) w
  | None => Some w
  end.

(** What [httpHandler] and [httpMiddleware] do with a non-nil error. *)
Definition respond (err : handler_error) (w : ResponseWriter) : option ResponseWriter :=
  match err with
  | tagged (Some srvErr) => ServeHTTP srvErr w
  | tagged None => None
  | untagged e => http_Error (Error e) StatusInternalServerError w
  end.

(** [httpHandler(h)], serving one request. *)
Definition httpHandler (h : Handler) (r : Request) (w : ResponseWriter) : option ResponseWriter :=
  let '(w, err) := h r w in
  match err with
  | Some err => respond err w
  | None => Some w
  end.

(** [httpMiddleware(m, next)], serving one request. *)
Definition httpMiddleware (m : Handler) (next : Request -> ResponseWriter -> option ResponseWriter)
    (r : Request) (w : ResponseWriter) : option ResponseWriter :=
  let '(w, err) := m r w in
  match err with
  | Some err => respond err w
  | None => next r w
  end.

(** The response as the client gets it: status, content type, body. *)
Definition response_of (w : ResponseWriter) : option (Z * option string * string) :=
  match Code w with
  | Some code => Some (code, snapHeader w !! "Content-Type", Body w)
  | None => None
  end.

(** *** Properties of the envelope *)

Lemma WriteHeader_fresh (code : Z) (w : ResponseWriter) :
  Code w = None -> (100 <= code <= 999)%Z ->
  WriteHeader code w =
    Some {| HeaderMap := HeaderMap w; Code := Some code;
            snapHeader := HeaderMap w; Body := Body w |}.
Proof.
  intros Hc Hr. unfold WriteHeader. rewrite Hc.
  destruct (Z.ltb_spec code 100); [lia|]. destruct (Z.ltb_spec 999 code); [lia|].
  reflexivity.
Qed.

(** [http.Error] on a writer whose header is not written yet. *)
Lemma http_Error_fresh (msg : string) (code : Z) (w : ResponseWriter) :
  Code w = None -> (100 <= code <= 999)%Z ->
  exists w',
    http_Error msg code w = Some w' /\
    response_of w' =
      Some (code, Some "text/plain; charset=utf-8", Body w +:+ msg +:+ newline).
Proof.
  intros Hc Hr. unfold http_Error.
  rewrite WriteHeader_fresh by (simpl; auto).
  unfold Write, WriteHeader. cbn [Code HeaderMap snapHeader Body Header_Set].
  eexists. split; [reflexivity|]. unfold response_of. cbn [Code snapHeader Body].
  rewrite lookup_insert_ne by discriminate. now rewrite lookup_insert_eq.
Qed.

(** What the envelope writes, case by case, for a handler that returns an
    error without having written a response; exactly one response is
    written in each.  For an error tagged as a server error (a
    [ServerError] with a non-nil [Err] and a final status, 200..999) of
    content type [application/json] the body is the encoding of the object
    with the one key [err] and the error's text, under the error's status
    and content type.  For a tagged error of any other content type
    [ServeHTTP] hands the text to [http.Error], which replaces the content
    type that was set: the body is the error's text and a newline as plain
    text under the error's status (this is where the code departs from
    C9).  For an untagged error it is the
    error's text and a newline as plain text under status 500.  A
    middleware that returns an error is answered in the same way and the
    next handler is not run. *)
Theorem handler_error_response (h : Handler) (r : Request) (w w1 : ResponseWriter)
    (err : handler_error) :
  h r w = (w1, Some err) ->
  Code w1 = None ->
  (forall e msg body,
      err = tagged (Some e) -> Err e = Some msg ->
      ContentType e = "application/json" -> (200 <= StatusCode e <= 999)%Z ->
      JSON_Bytes {[ "err" := Error msg ]} = inl body ->
      exists w2,
        httpHandler h r w = Some w2 /\
        response_of w2 = Some (StatusCode e, Some "application/json", Body w1 +:+ body)) /\
  (forall e msg,
      err = tagged (Some e) -> Err e = Some msg ->
      ContentType e <> "application/json" -> (200 <= StatusCode e <= 999)%Z ->
      exists w2,
        httpHandler h r w = Some w2 /\
        response_of w2 =
          Some (StatusCode e, Some "text/plain; charset=utf-8",
                Body w1 +:+ Error msg +:+ newline)) /\
  (forall e,
      err = untagged e ->
      exists w2,
        httpHandler h r w = Some w2 /\
        response_of w2 =
          Some (StatusInternalServerError, Some "text/plain; charset=utf-8",
                Body w1 +:+ Error e +:+ newline)) /\
  (forall next, httpMiddleware h next r w = httpHandler h r w).
Proof.
  intros Hh Hc. unfold httpHandler, httpMiddleware. rewrite Hh.
  split; [|split; [|split]].
  - intros e msg body -> He Hct Hr Hj. unfold respond, ServeHTTP.
    rewrite He, Hct, String.eqb_refl.
    destruct (Z.leb_spec 100 (StatusCode e)); [|lia].
    rewrite WriteHeader_fresh by (simpl; auto; lia). rewrite Hj.
    unfold Write, WriteHeader. cbn [Code HeaderMap snapHeader Body Header_Set].
    eexists. split; [reflexivity|]. unfold response_of. cbn [Code snapHeader Body].
    now rewrite lookup_insert_eq.
  - intros e msg -> He Hct Hr. unfold respond, ServeHTTP. rewrite He.
    apply String.eqb_neq in Hct. rewrite Hct.
    destruct (http_Error_fresh (Error msg) (StatusCode e)
                (Header_Set "Content-Type" (ContentType e) w1)) as (w2 & E & R);
      [exact Hc | lia |].
    exists w2. split; [exact E|]. exact R.
  - intros e ->. unfold respond.
    destruct (http_Error_fresh (Error e) StatusInternalServerError w1) as (w2 & E & R);
      [exact Hc | unfold StatusInternalServerError; lia |].
    exists w2. split; [exact E | exact R].
  - reflexivity.
Qed.

(** X8: the corners of the envelope.  A handler returns a tagged error
    without having written a response: a [ServerError] whose [Err] is nil
    gets no response written; one of content type [application/json] whose
    status is below 100 (not set, say) is answered with status 200 and the
    JSON body; one of another content type whose status is outside
    100..999 makes [http.Error] panic, as does a JSON one above 999; and a
    nil [*ServerError] returned as an error panics when its text is
    asked for. *)
Theorem ServerError_corners (h : Handler) (r : Request) (w w1 : ResponseWriter)
    (err : handler_error) :
  h r w = (w1, Some err) ->
  Code w1 = None ->
  (forall e, err = tagged (Some e) -> Err e = None -> httpHandler h r w = Some w1) /\
  (forall e msg body,
      err = tagged (Some e) -> Err e = Some msg ->
      ContentType e = "application/json" -> (StatusCode e < 100)%Z ->
      JSON_Bytes {[ "err" := Error msg ]} = inl body ->
      exists w2,
        httpHandler h r w = Some w2 /\
        response_of w2 = Some (200%Z, Some "application/json", Body w1 +:+ body)) /\
  (forall e msg,
      err = tagged (Some e) -> Err e = Some msg ->
      (ContentType e = "application/json" -> (999 < StatusCode e)%Z) ->
      (StatusCode e < 100 \/ 999 < StatusCode e)%Z ->
      httpHandler h r w = None) /\
  (err = tagged None -> httpHandler h r w = None).
Proof.
  intros Hh Hc. unfold httpHandler. rewrite Hh.
  split; [|split; [|split]].
  - intros e -> He. unfold respond, ServeHTTP. now rewrite He.
  - intros e msg body -> He Hct Hr Hj. unfold respond, ServeHTTP.
    rewrite He, Hct, String.eqb_refl.
    destruct (Z.leb_spec 100 (StatusCode e)); [lia|]. rewrite Hj.
    unfold Write, WriteHeader. cbn [Code HeaderMap snapHeader Body Header_Set]. rewrite Hc.
    cbn [orb Z.ltb Z.compare Pos.compare Pos.compare_cont].
    eexists. split; [reflexivity|]. unfold response_of. cbn [Code snapHeader Body].
    now rewrite lookup_insert_eq.
  - intros e msg -> He Hct Hr. unfold respond, ServeHTTP. rewrite He.
    assert (Hpanic : forall w', Code w' = None -> WriteHeader (StatusCode e) w' = None).
    { intros w' Hw. unfold WriteHeader. rewrite Hw.
      destruct (Z.ltb_spec (StatusCode e) 100), (Z.ltb_spec 999 (StatusCode e));
        try reflexivity; lia. }
    destruct (String.eqb_spec (ContentType e) "application/json") as [E | _].
    + specialize (Hct E). destruct (Z.leb_spec 100 (StatusCode e)); [|lia].
      now rewrite Hpanic.
    + unfold http_Error. now rewrite Hpanic.
  - now intros ->.
Qed.

(** *** Routes of the root server and their middleware *)

(** [type Router struct]. *)
Record Router : Type := {
  pattern : string;
  handler : Handler;
  middlewares : list Handler
}.

(** [s.registerRoute(method, endpoint, handlers...)], on the route table. *)
Definition registerRoute (method endpoint : string) (handlers : list Handler)
    (routes : list Router) : list Router * option error :=
  match last handlers with
  | None => (routes, Some (errorString "put a handler"))
  | Some h =>
      (routes ++ [{| pattern := method +:+ " " +:+ endpoint; handler := h;
                     middlewares := take (length handlers - 1) handlers |}],
       None)
  end.

(** [s.Get], [s.Post], [s.Put], [s.Patch], [s.Delete] of the root server. *)
Definition Server_Get := registerRoute "GET".
Definition Server_Post := registerRoute "POST".
Definition Server_Put := registerRoute "PUT".
Definition Server_Patch := registerRoute "PATCH".
Definition Server_Delete := registerRoute "DELETE".

(** The inner loop of [Listen], with [i] steps to go: index [i - 1] down
    to 0.  The index is within the slice when the loop starts at its
    length. *)
Fixpoint wrap (middlewares : list Handler) (i : nat)
    (finalHandler : Request -> ResponseWriter -> option ResponseWriter)
    : Request -> ResponseWriter -> option ResponseWriter :=
  match i with
  | 0 => finalHandler
  | S i' =>
      match middlewares !! i' with
      | Some m => wrap middlewares i' (httpMiddleware m finalHandler)
      | None => finalHandler
      end
  end.

(** What [Listen] hands the multiplexer, route by route: the pattern and
    the final handler. *)
Definition Listen (routes : list Router)
    : list (string * (Request -> ResponseWriter -> option ResponseWriter)) :=
  map (fun route =>
         (pattern route,
          wrap (middlewares route) (length (middlewares route)) (httpHandler (handler route))))
      routes.

(** The writer after the middleware of a list have run one after the
    other, when none of them returned an error. *)
Fixpoint passes (ms : list Handler) (r : Request) (w : ResponseWriter) : option ResponseWriter :=
  match ms with
  | [] => Some w
  | m :: ms' =>
      match m r w with
      | (w', None) => passes ms' r w'
      | (_, Some _) => None
      end
  end.

Lemma wrap_take (ms : list Handler) (i : nat)
    (f : Request -> ResponseWriter -> option ResponseWriter) :
  i <= length ms -> wrap ms i f = foldr httpMiddleware f (take i ms).
Proof.
  revert f. induction i as [|i IH]; intros f Hi; [reflexivity|].
  cbn [wrap]. destruct (lookup_lt_is_Some_2 ms i ltac:(lia)) as [m Hm]. rewrite Hm.
  rewrite IH by lia. rewrite (take_S_r _ _ _ Hm). now rewrite foldr_app.
Qed.

Lemma chain_stops (pre post : list Handler) (m : Handler)
    (f : Request -> ResponseWriter -> option ResponseWriter) (r : Request) :
  forall w wk w' err,
  passes pre r w = Some wk -> m r wk = (w', Some err) ->
  foldr httpMiddleware f (pre ++ m :: post) r w = respond err w'.
Proof.
  induction pre as [|p pre IH]; intros w wk w' err Hp Hm.
  - injection Hp as ->. cbn [app foldr]. unfold httpMiddleware at 1. now rewrite Hm.
  - cbn [app foldr passes] in *. unfold httpMiddleware at 1.
    destruct (p r w) as [w0 [e|]]; [discriminate|]. now apply (IH w0 wk).
Qed.

Lemma chain_reaches (ms : list Handler)
    (f : Request -> ResponseWriter -> option ResponseWriter) (r : Request) :
  forall w wn, passes ms r w = Some wn -> foldr httpMiddleware f ms r w = f r wn.
Proof.
  induction ms as [|m ms IH]; intros w wn Hp.
  - now injection Hp as ->.
  - cbn [foldr passes] in *. unfold httpMiddleware at 1.
    destruct (m r w) as [w0 [e|]]; [discriminate|]. now apply IH.
Qed.

(** X6: a route registered with the handlers [ms ++ [h]] is added to the
    end of the table under the pattern [method endpoint], and what
    [Listen] mounts for it serves a request by running the handlers in the
    order they were passed: the first one of [ms] that returns an error is
    answered with the response for that error and nothing after it runs;
    when none of them does, [h] runs on the writer they leave, behind
    [httpHandler].  Registering with no handler at all returns the error
    [put a handler] and leaves the table as it is. *)
Theorem Listen_serves_in_order (method endpoint : string) (ms : list Handler) (h : Handler)
    (routes : list Router) :
  exists serve,
    (registerRoute method endpoint (ms ++ [h]) routes).2 = None /\
    Listen (registerRoute method endpoint (ms ++ [h]) routes).1 =
      Listen routes ++ [(method +:+ " " +:+ endpoint, serve)] /\
    (forall pre m post r w wk w' err,
        ms = pre ++ m :: post -> passes pre r w = Some wk -> m r wk = (w', Some err) ->
        serve r w = respond err w') /\
    (forall r w wn, passes ms r w = Some wn -> serve r w = httpHandler h r wn) /\
    registerRoute method endpoint [] routes = (routes, Some (errorString "put a handler")).
Proof.
  exists (foldr httpMiddleware (httpHandler h) ms).
  unfold registerRoute. rewrite last_snoc. cbn [fst snd last].
  assert (E : take (length (ms ++ [h]) - 1) (ms ++ [h]) = ms).
  { rewrite length_app. cbn [length]. replace (length ms + 1 - 1) with (length ms) by lia.
    now rewrite take_app_length. }
  rewrite E. split; [reflexivity|]. split.
  - unfold Listen. rewrite map_app. cbn [map pattern handler middlewares].
    rewrite wrap_take by lia. now rewrite firstn_all.
  - split; [|split; [|reflexivity]].
    + intros pre m post r w wk w' err -> Hp Hm. now apply (chain_stops pre post m _ r w wk).
    + intros r w wn Hp. now apply chain_reaches.
Qed.

End Envelope.

(** *** The response wrapper of the root package *)

(** [type Response struct]: the writer and the status set for it. *)
Record Response : Type := { res : ResponseWriter; statusCode : Z }.

(** The wrapper [httpHandler] and [httpMiddleware] make for a handler. *)
Definition NewResponse (w : ResponseWriter) : Response := {| res := w; statusCode := 0 |}.

Definition with_res (r : Response) (w : ResponseWriter) : Response :=
  {| res := w; statusCode := statusCode r |}.

(** [r.Status(statusCode)]. *)
Definition Status (code : Z) (r : Response) : Response :=
  {| res := res r; statusCode := code |}.

(** [r.SetHeader(key, value)]. *)
Definition SetHeader (key value : string) (r : Response) : Response :=
  with_res r (Header_Set key value (res r)).

Definition defaultStatusCode : Z := 200.

(** [r.invalidStatusCode()]: below [StatusContinue] or above
    [StatusNetworkAuthenticationRequired]. *)
Definition invalidStatusCode (r : Response) : bool :=
  (statusCode r <? 100)%Z || (511 <? statusCode r)%Z.

(** [r.writeStatus()]; [None] when [WriteHeader] panics. *)
Definition writeStatus (r : Response) : option Response :=
  if negb (invalidStatusCode r) && negb (statusCode r =? defaultStatusCode)%Z
  then with_res r <$> WriteHeader (statusCode r) (res r)
  else with_res r <$> WriteHeader defaultStatusCode (res r).

(** [r.SendStatus(statusCode)]. *)
Definition SendStatus (code : Z) (r : Response) : option Response :=
  writeStatus (Status code r).

Section Sending.

(** [http.DetectContentType]. *)
Variable DetectContentType : string -> string.

(** [r.Send(b)]; the writer's [Write] returns no error, so neither does
    [Send]. *)
Definition Send (b : string) (r : Response) : option Response :=
  match writeStatus r with
  | None => None
  | Some r =>
      if 0 <? String.length b then
        let r := SetHeader "Content-Type" (DetectContentType b) r in
        with_res r <$> Write b (res r)
      else Some r
  end.

(** The status [writeStatus] asks the writer for. *)
Lemma writeStatus_code (r : Response) :
  exists code,
    writeStatus r = (with_res r <$> WriteHeader code (res r)) /\
    (100 <= code <= 511)%Z /\
    ((100 <= statusCode r <= 511)%Z -> code = statusCode r) /\
    ((statusCode r < 100 \/ 511 < statusCode r)%Z -> code = 200%Z).
Proof.
  unfold writeStatus, invalidStatusCode, defaultStatusCode.
  destruct (Z.ltb_spec (statusCode r) 100), (Z.ltb_spec 511 (statusCode r)),
    (Z.eqb_spec (statusCode r) 200); cbn [negb orb andb];
    eexists; (split; [reflexivity|]); lia.
Qed.

Lemma WriteHeader_some (code : Z) (w : ResponseWriter) :
  (100 <= code <= 999)%Z ->
  exists w', WriteHeader code w = Some w' /\ Body w' = Body w /\
    Code w' = Some (default code (Code w)).
Proof.
  intros Hr. unfold WriteHeader. destruct (Code w) as [c|] eqn:Hc.
  - exists w. now rewrite Hc.
  - destruct (Z.ltb_spec code 100); [lia|]. destruct (Z.ltb_spec 999 code); [lia|].
    eexists. split; [reflexivity|]. now split.
Qed.

(** X7: [Send] and [SendStatus] never hand the writer a status it panics
    on.  Whatever status was set with [Status], [Send] returns with the
    bytes added to the body; on a writer whose header is not written yet
    the status written is the one set when that lies in 100..511, and 200
    when it lies outside (none was set, say); once the header is written
    the status stays.  [SendStatus] writes the status in the same way. *)
Theorem Send_writes_valid_status (b : string) (code : Z) (r : Response) :
  exists r' c,
    Send b (Status code r) = Some r' /\
    Body (res r') = Body (res r) +:+ b /\
    Code (res r') = Some (default c (Code (res r))) /\
    (100 <= c <= 511)%Z /\
    ((100 <= code <= 511)%Z -> c = code) /\
    ((code < 100 \/ 511 < code)%Z -> c = 200%Z) /\
    (res <$> SendStatus code r) = WriteHeader c (res r).
Proof.
  destruct (writeStatus_code (Status code r)) as (c & E & Hr & H1 & H2).
  cbn [statusCode Status res] in *.
  destruct (WriteHeader_some c (res r) ltac:(lia)) as (w' & Ew & Bw & Cw).
  assert (Hs : (res <$> SendStatus code r) = WriteHeader c (res r)).
  { unfold SendStatus. now rewrite E, Ew. }
  unfold Send. rewrite E, Ew. cbn [fmap option_fmap option_map].
  destruct (0 <? String.length b) eqn:Hb.
  - set (w1 := Header_Set "Content-Type" (DetectContentType b) w').
    assert (Hw : Write b w1 =
                   Some {| HeaderMap := HeaderMap w1; Code := Code w'; snapHeader := snapHeader w';
                           Body := Body w' +:+ b |}).
    { unfold Write, WriteHeader. subst w1. cbn [Header_Set Code]. rewrite Cw.
      cbn [Header_Set Code snapHeader Body HeaderMap]. now rewrite Cw. }
    cbn [SetHeader with_res res]. fold w1. rewrite Hw.
    cbn [fmap option_fmap option_map].
    eexists _, c. split; [reflexivity|]. cbn [res with_res Body Code]. rewrite Bw, Cw.
    repeat split; auto; lia.
  - destruct b; [|discriminate]. rewrite str_app_nil_r.
    eexists _, c. split; [reflexivity|]. cbn [res with_res]. rewrite Bw, Cw.
    repeat split; auto; lia.
Qed.

End Sending.

End ErrorEnvelope.

(** ** The error envelope at work *)
Module EnvelopeScenarios.
Import GoStrings GoErrors ErrorEnvelope.

Definition quote : string := String (ascii_of_nat 34) "".

(** The encoding of a payload with the one key [err] whose text needs no
    escaping. *)
Definition encode (payload : gmap string string) : string + error :=
  match payload !! "err" with
  | Some msg => inl ("{" +:+ quote +:+ "err" +:+ quote +:+ ":" +:+ quote +:+ msg +:+ quote +:+ "}")
  | None => inl "{}"
  end.

(** A handler that returns the given error and writes nothing. *)
Definition failing (err : handler_error) : Handler unit :=
  fun _ w => (w, Some err).

Definition not_found (contentType : string) : handler_error :=
  tagged (Some {| StatusCode := 404; ContentType := contentType;
                  Err := Some (errorString "account not found") |}).

(** C9 (the code departs from it): a handler error tagged as a server
    error whose content type is not [application/json], here [text/html]
    with status 404, is not written as the JSON object under its own
    content type.  [ServeHTTP] sets the [Content-Type] header to the
    error's own and then hands the error to [http.Error], which sets the
    header again: the response is the raw text and a newline as
    [text/plain].  The same error with content type [application/json] is
    written as the claim says. *)
Theorem tagged_error_loses_content_type :
  ServeHTTP encode {| StatusCode := 404; ContentType := "text/html";
                      Err := Some (errorString "account not found") |} NewRecorder =
    http_Error "account not found" 404 (Header_Set "Content-Type" "text/html" NewRecorder) /\
  response_of <$> httpHandler encode unit (failing (not_found "text/html")) tt NewRecorder =
    Some (Some (404%Z, Some "text/plain; charset=utf-8", "account not found" +:+ newline)) /\
  response_of <$> httpHandler encode unit (failing (not_found "application/json")) tt NewRecorder =
    Some (Some (404%Z, Some "application/json",
                "{" +:+ quote +:+ "err" +:+ quote +:+ ":" +:+ quote +:+
                "account not found" +:+ quote +:+ "}")).
Proof. repeat split; reflexivity. Qed.

Lemma handler_error_response_witness :
  failing (not_found "application/json") tt NewRecorder
    = (NewRecorder, Some (not_found "application/json")) /\
  Code NewRecorder = None /\
  response_of <$> httpHandler encode unit (failing (not_found "application/json")) tt NewRecorder =
    Some (Some (404%Z, Some "application/json",
                "{" +:+ quote +:+ "err" +:+ quote +:+ ":" +:+ quote +:+
                "account not found" +:+ quote +:+ "}")) /\
  response_of <$> httpHandler encode unit (failing (untagged (errorString "boom"))) tt NewRecorder =
    Some (Some (500%Z, Some "text/plain; charset=utf-8", "boom" +:+ newline)).
Proof.
  split; [reflexivity|]. split; [reflexivity|]. split.
  - destruct (handler_error_response encode unit (failing (not_found "application/json")) tt
                NewRecorder NewRecorder (not_found "application/json") eq_refl eq_refl)
      as (H & _).
    destruct (H _ (errorString "account not found") _ eq_refl eq_refl eq_refl
                ltac:(simpl; lia) eq_refl) as (w2 & E & R).
    rewrite E. simpl. now rewrite R.
  - destruct (handler_error_response encode unit (failing (untagged (errorString "boom"))) tt
                NewRecorder NewRecorder (untagged (errorString "boom")) eq_refl eq_refl)
      as (_ & _ & H & _).
    destruct (H _ eq_refl) as (w2 & E & R). rewrite E. simpl. now rewrite R.
Defined.

(** A JSON error whose status was never set. *)
Definition unset_status : handler_error :=
  tagged (Some {| StatusCode := 0; ContentType := "application/json";
                  Err := Some (errorString "boom") |}).

Lemma ServerError_corners_witness :
  failing unset_status tt NewRecorder = (NewRecorder, Some unset_status) /\
  Code NewRecorder = None /\
  response_of <$> httpHandler encode unit (failing unset_status) tt NewRecorder =
    Some (Some (200%Z, Some "application/json",
                "{" +:+ quote +:+ "err" +:+ quote +:+ ":" +:+ quote +:+ "boom" +:+ quote +:+ "}")).
Proof.
  split; [reflexivity|]. split; [reflexivity|].
  destruct (ServerError_corners encode unit (failing unset_status) tt
              NewRecorder NewRecorder unset_status eq_refl eq_refl)
    as (_ & H & _).
  destruct (H _ (errorString "boom") _ eq_refl eq_refl eq_refl ltac:(simpl; lia) eq_refl)
    as (w2 & E & R).
  rewrite E. simpl. now rewrite R.
Defined.

(** Two middleware in front of a handler: one that passes and marks the
    response, one that refuses. *)
Definition mark : Handler unit :=
  fun _ w => (Header_Set "X-Middleware" "true" w, None).

Definition hello : Handler unit :=
  fun _ w => (default w (res <$> Send (fun _ => "text/plain; charset=utf-8") "Hello"
                                   (NewResponse w)), None).

(** The status and the body a recorder shows. *)
Definition shown (w : option ResponseWriter) : option (option Z * string) :=
  option_map (fun w => (Code w, Body w)) w.

(** The routes [s.Get("/hello", mark, failing, hello)] and
    [s.Get("/hello", mark, hello)], served. *)
Lemma Listen_serves_in_order_witness :
  (exists serve,
      Listen encode unit
        (Server_Get unit "/hello" [mark; failing (untagged (errorString "denied")); hello] []).1
        = [("GET /hello", serve)] /\
      shown (serve tt NewRecorder) = Some (Some 500%Z, "denied" +:+ newline)) /\
  (exists serve,
      Listen encode unit (Server_Get unit "/hello" [mark; hello] []).1
        = [("GET /hello", serve)] /\
      shown (serve tt NewRecorder) = Some (Some 200%Z, "Hello") /\
      HeaderMap <$> serve tt NewRecorder =
        Some {[ "X-Middleware" := "true"; "Content-Type" := "text/plain; charset=utf-8" ]}).
Proof.
  split.
  - destruct (Listen_serves_in_order encode unit "GET" "/hello"
                [mark; failing (untagged (errorString "denied"))] hello [])
      as (serve & _ & HL & Hstop & _).
    exists serve. split; [exact HL|].
    now rewrite (Hstop [mark] (failing (untagged (errorString "denied"))) [] tt NewRecorder
                   _ _ _ eq_refl eq_refl eq_refl).
  - destruct (Listen_serves_in_order encode unit "GET" "/hello" [mark] hello [])
      as (serve & _ & HL & _ & Hreach & _).
    exists serve. split; [exact HL|].
    rewrite (Hreach tt NewRecorder _ eq_refl). split; [reflexivity|].
    cbn. now f_equal.
Defined.

End EnvelopeScenarios.

(** ** The client's addresses ([Context.IP], [Context.IPs], [pkg/server/context.go]) *)
Module ClientAddress.
Import GoStrings.

(** [bytes.Split(s, ",")]: the parts of [s] between its commas. *)
Fixpoint Split (s : string) : list string :=
  match s with
  | "" => [""]
  | String c rest =>
      if Ascii.eqb c ","%char then "" :: Split rest
      else match Split rest with
           | part :: parts => String c part :: parts
           | [] => [String c ""]
           end
  end.

(** [strings.Join(parts, ",")]. *)
Fixpoint Join (parts : list string) : string :=
  match parts with
  | [] => ""
  | part :: rest =>
      match rest with
      | [] => part
      | _ => part +:+ "," +:+ Join rest
      end
  end.

(** The number of commas of [s]. *)
Fixpoint commas (s : string) : nat :=
  match s with
  | "" => 0
  | String c rest => (if Ascii.eqb c ","%char then 1 else 0) + commas rest
  end.

Section Request.

(** The request: [c.Request.Header(key)] and [RemoteAddr]. *)
Variable Header : string -> string.
Variable RemoteAddr : string.

(** [bytes.TrimSpace]. *)
Variable TrimSpace : string -> string.

(** [splitComma(s)]. *)
Definition splitComma (s : string) : list string := map TrimSpace (Split s).

(** [c.IP()]. *)
Definition IP : string :=
  if negb (String.eqb (Header "X-Real-IP") "") then Header "X-Real-IP"
  else if negb (String.eqb (Header "X-Forwarded-For") "") then Header "X-Forwarded-For"
  else RemoteAddr.

(** [c.IPs()]. *)
Definition IPs : list string :=
  let ips := Header "X-Forwarded-For" in
  if String.eqb ips "" then [IP] else splitComma ips.

Lemma Split_length (s : string) : length (Split s) = S (commas s).
Proof.
  induction s as [|c s IH]; [reflexivity|]. cbn [Split commas].
  destruct (Ascii.eqb c ","%char); cbn [length]; [now rewrite IH|].
  destruct (Split s); [discriminate IH | exact IH].
Qed.

Lemma Join_Split (s : string) : Join (Split s) = s.
Proof.
  induction s as [|c s IH]; [reflexivity|]. cbn [Split].
  pose proof (Split_length s) as L.
  destruct (Ascii.eqb_spec c ","%char) as [-> | _].
  - destruct (Split s) as [|p ps]; [discriminate L|].
    change (Join ("" :: p :: ps)) with ("" +:+ "," +:+ Join (p :: ps)). now rewrite IH.
  - destruct (Split s) as [|p ps]; [discriminate L|].
    destruct ps as [|q ps].
    + cbn [Join] in *. now rewrite IH.
    + change (Join (String c p :: q :: ps)) with (String c p +:+ "," +:+ Join (q :: ps)).
      change (Join (p :: q :: ps)) with (p +:+ "," +:+ Join (q :: ps)) in IH.
      now rewrite str_app_cons, IH.
Qed.

Lemma Split_no_comma (s : string) : Forall (fun raw => commas raw = 0) (Split s).
Proof.
  induction s as [|c s IH]; [repeat constructor|]. cbn [Split].
  destruct (Ascii.eqb c ","%char) eqn:E; [now constructor|].
  destruct (Split s) as [|p ps]; [repeat constructor; cbn [commas]; now rewrite E|].
  inversion IH as [|? ? Hp Hps]; subst. constructor; [|exact Hps].
  cbn [commas]. now rewrite E, Hp.
Qed.

Lemma commas_app (a b : string) : commas (a +:+ b) = commas a + commas b.
Proof.
  induction a as [|c a IH]; [reflexivity|].
  rewrite str_app_cons. cbn [commas]. rewrite IH. lia.
Qed.

(** X12: [IPs] never returns an empty list.  Without an [X-Forwarded-For]
    header it returns the one address of [IP], which is then the
    [X-Real-IP] header when that is set and the remote address otherwise.
    With the header it returns one entry per comma-separated part, each
    the part trimmed: one more entry than the header has commas, the parts
    being what joined with commas gives the header back; and since
    trimming keeps a piece of its argument, no entry holds a comma. *)
Theorem IPs_one_per_part :
  IPs <> [] /\
  (Header "X-Forwarded-For" = "" ->
   IPs = [IP] /\
   IP = if String.eqb (Header "X-Real-IP") "" then RemoteAddr else Header "X-Real-IP") /\
  (Header "X-Forwarded-For" <> "" ->
   length IPs = S (commas (Header "X-Forwarded-For")) /\
   exists raw,
     Join raw = Header "X-Forwarded-For" /\ Forall (fun part => commas part = 0) raw /\
     IPs = map TrimSpace raw /\
     ((forall s, exists a b, s = a +:+ TrimSpace s +:+ b) ->
      Forall (fun entry => commas entry = 0) IPs)).
Proof.
  unfold IPs, IP, splitComma. split; [|split].
  - destruct (String.eqb (Header "X-Forwarded-For") ""); [discriminate|].
    pose proof (Split_length (Header "X-Forwarded-For")) as L.
    destruct (Split (Header "X-Forwarded-For")); [discriminate L | discriminate].
  - intros ->. cbn [String.eqb negb]. split; [reflexivity|].
    now destruct (String.eqb (Header "X-Real-IP") "").
  - intros Hne. apply String.eqb_neq in Hne. rewrite Hne.
    split; [now rewrite length_map, Split_length|].
    exists (Split (Header "X-Forwarded-For")).
    split; [apply Join_Split|]. split; [apply Split_no_comma|]. split; [reflexivity|].
    intros Hpart. apply Forall_map.
    eapply Forall_impl; [apply Split_no_comma|]. intros raw Hraw. cbn.
    destruct (Hpart raw) as (a & b & E). rewrite E in Hraw.
    rewrite !commas_app in Hraw. lia.
Qed.

End Request.

End ClientAddress.

(** ** Client addresses at work *)
Module AddressScenarios.
Import GoStrings ClientAddress.

Definition is_space (c : ascii) : bool :=
  existsb (Nat.eqb (nat_of_ascii c)) [9; 10; 11; 12; 13; 32].

Fixpoint trim_left (s : string) : string :=
  match s with
  | String c rest => if is_space c then trim_left rest else s
  | "" => ""
  end.

Fixpoint trim_right (s : string) : string :=
  match s with
  | String c rest =>
      match trim_right rest with
      | "" => if is_space c then "" else String c ""
      | kept => String c kept
      end
  | "" => ""
  end.

(** [bytes.TrimSpace] on text of the ASCII range. *)
Definition trim (s : string) : string := trim_right (trim_left s).

(** A request that came through two proxies. *)
Definition forwarded (key : string) : string :=
  if String.eqb key "X-Forwarded-For" then "203.0.113.7, 10.0.0.2 ,10.0.0.1" else "".

Example IPs_of_forwarded :
  IPs forwarded "192.0.2.1:4711" trim = ["203.0.113.7"; "10.0.0.2"; "10.0.0.1"] /\
  IP forwarded "192.0.2.1:4711" = "203.0.113.7, 10.0.0.2 ,10.0.0.1" /\
  IPs (fun _ => "") "192.0.2.1:4711" trim = ["192.0.2.1:4711"].
Proof. repeat split; reflexivity. Qed.

End AddressScenarios.
